(** * tdgl.device.mesh: mesh generation, refinement and boundary extraction

    A shallow embedding of [src/tdgl/device/mesh.py] and the properties its
    specification states about it.

    Coordinates are NumPy [float64] values.  The development is parametric in
    the scalar type: [Scalar F] lists the operations the source applies to a
    coordinate.  Equality on [F] is identity of two stored values; the
    comparison [==] that NumPy and Python apply to coordinates is the
    operation [feqb], for which [0.0] and [-0.0] are equal and a NaN is equal
    to nothing, itself included.  The libraries the module calls (meshpy's Triangle, scipy's
    ConvexHull, shapely, optimesh) and the repository's [get_edge_lengths]
    helper are capabilities given as type classes; every theorem holds for
    all of their implementations. *)

From Stdlib Require Import ZArith Floats.
From stdpp Require Import gmap strings list sorting.

Open Scope Z_scope.
Open Scope nat_scope.

(** ** Scalars *)

Class Scalar (F : Type) := {
  scalar_eq_dec :: EqDecision F;
  (** the value of a decimal literal of the source, [num / den] *)
  flit : Z → positive → F;
  fadd : F → F → F;
  fsub : F → F → F;
  fmul : F → F → F;
  fdiv : F → F → F;
  (** [np.sqrt] *)
  fsqrt : F → F;
  (** [a < b] and [a <= b] *)
  fltb : F → F → bool;
  fleb : F → F → bool;
  (** [a == b]: [0.0 == -0.0] holds, [nan == nan] does not *)
  feqb : F → F → bool;
  (** [np.inf] and [np.isfinite] *)
  finf : F;
  fisfinite : F → bool;
  finf_not_finite : fisfinite finf = false;
  (** between two numbers (values with [x <= x], so no NaN), [a < b] is
      false exactly when [b <= a] *)
  fleb_of_not_fltb a b :
    fleb a a = true → fleb b b = true → fltb a b = false → fleb b a = true;
  (** [==] is symmetric and transitive; it is not reflexive *)
  feqb_sym a b : feqb a b = feqb b a;
  feqb_trans a b c : feqb a b = true → feqb b c = true → feqb a c = true;
}.

(** ** Python values and exceptions *)

(** The exceptions the module raises or lets through. *)
Inductive exn : Type :=
  | BoundaryWithConvexHull  (* ValueError raised by generate_mesh itself *)
  | ZeroSizeReduction       (* ValueError: min/max/ptp of an empty array *)
  | BroadcastError          (* ValueError: operands could not be broadcast *)
  | NotInList               (* ValueError: list.index(x), x not in list *)
  | IndexError              (* index out of range *)
  | KeyError                (* missing dict key *)
  | TypeError               (* operand of the wrong type *)
  | QhullError              (* scipy.spatial.ConvexHull failed *)
  | ShapelyError            (* shapely refused the geometry *)
  | EngineError             (* triangle.build failed *)
  | OptimeshError.          (* optimesh failed *)

(** What running a piece of the module gives: a value, an exception, or no
    answer within the iteration budget of the refinement loop. *)
Inductive outcome (A : Type) : Type :=
  | Ok (a : A)
  | Raise (e : exn)
  | OutOfFuel.
Arguments Ok {A} a.
Arguments Raise {A} e.
Arguments OutOfFuel {A}.

Definition obind {A B : Type} (m : outcome A) (k : A → outcome B) : outcome B :=
  match m with
  | Ok a => k a
  | Raise e => Raise e
  | OutOfFuel => OutOfFuel
  end.

Definition or_raise {A : Type} (e : exn) (o : option A) : outcome A :=
  match o with
  | Some a => Ok a
  | None => Raise e
  end.

Fixpoint omapM {A B : Type} (f : A → outcome B) (l : list A) : outcome (list B) :=
  match l with
  | [] => Ok []
  | x :: l' => obind (f x) (λ y, obind (omapM f l') (λ ys, Ok (y :: ys)))
  end.

Notation "'let*' x := m 'in' k" := (obind m (λ x, k))
  (at level 10, x pattern, m at level 100, k at level 200).

(** A value of the keyword dictionary handed to the triangulation engine. *)
Inductive pyval (F : Type) : Type :=
  | PyFloat (x : F)
  | PyInt (z : Z)
  | PyBool (b : bool)
  | PyStr (s : string).
Arguments PyFloat {F} x.
Arguments PyInt {F} z.
Arguments PyBool {F} b.
Arguments PyStr {F} s.

#[export] Instance pyval_eq_dec {F : Type} `{EqDecision F} : EqDecision (pyval F).
Proof. solve_decision. Defined.

(** ** The pieces of NumPy and Python the module uses *)

(** A row of a shape [(n, 2)] coordinate array. *)
Abbreviation point F := (F * F)%type.

Section Numpy.
Context {F : Type} `{!Scalar F}.

Definition pt_sub (p r : point F) : point F := (fsub p.1 r.1, fsub p.2 r.2).
Definition pt_add (p r : point F) : point F := (fadd p.1 r.1, fadd p.2 r.2).

(** [np.isnan(x)]: a NaN is the one value that differs from itself. *)
Definition fisnan (x : F) : bool := negb (feqb x x).

(** [p == q] for two rows, or two tuples, of coordinates: both components
    are equal. *)
Definition pt_eqb (p q : point F) : bool := feqb p.1 q.1 && feqb p.2 q.2.

(** [a.min()], [a.max()] and [np.ptp(a)] of a one-dimensional array.  The
    reduction keeps the running value [m] when [m <= y] (for [max]: when
    [m >= y]) or when [m] is a NaN, and takes [y] otherwise: a NaN anywhere
    in the array is the result. *)
Definition np_min (a : list F) : outcome F :=
  match a with
  | [] => Raise ZeroSizeReduction
  | x :: a' => Ok (foldl (λ m y, if fleb m y || fisnan m then m else y) x a')
  end.

Definition np_max (a : list F) : outcome F :=
  match a with
  | [] => Raise ZeroSizeReduction
  | x :: a' => Ok (foldl (λ m y, if fleb y m || fisnan m then m else y) x a')
  end.

Definition np_ptp (a : list F) : outcome F :=
  let* hi := np_max a in
  let* lo := np_min a in
  Ok (fsub hi lo).

(** The builtin [min(a, b)]: [b] when [b < a], else [a]. *)
Definition py_min (a b : F) : F := if fltb b a then b else a.

(** [l.index(x)]: the first position holding a value [y] with [y == x];
    [eqb] is the [==] of the elements. *)
Fixpoint index_of {A : Type} (eqb : A → A → bool) (x : A) (l : list A) : option nat :=
  match l with
  | [] => None
  | y :: l' => if eqb y x then Some 0 else S <$> index_of eqb x l'
  end.

(** [a[i]] for a possibly negative integer [i]. *)
Definition np_get {A : Type} (a : list A) (i : Z) : outcome A :=
  let n := Z.of_nat (length a) in
  if (0 <=? i)%Z then or_raise IndexError (a !! Z.to_nat i)
  else if (- n <=? i)%Z then or_raise IndexError (a !! Z.to_nat (n + i))
  else Raise IndexError.

(** [a[ix]] for an array [ix] of non-negative positions. *)
Definition np_take {A : Type} (a : list A) (ix : list nat) : outcome (list A) :=
  omapM (λ i, or_raise IndexError (a !! i)) ix.

(** [np.roll(a, -1)] *)
Definition np_roll_left {A : Type} (a : list A) : list A :=
  match a with
  | [] => []
  | x :: a' => a' ++ [x]
  end.

(** [np.array([a, np.roll(a, -1)]).T]: the closed cycle through [a]. *)
Definition cycle_facets (a : list nat) : list (nat * nat) :=
  zip a (np_roll_left a).

(** [np.arange(lo, lo + n)] *)
Definition np_arange (lo n : nat) : list nat := seq lo n.

(** The order NumPy sorts scalars in: [a < b], with every NaN after every
    number. *)
Definition sort_ltb (a b : F) : bool := fltb a b || (fisnan b && negb (fisnan a)).

(** Rows in the order [np.unique(..., axis=0)] sorts them: by the first
    column, then by the second. *)
Definition row_ltb (p q : point F) : bool :=
  sort_ltb p.1 q.1 || (negb (sort_ltb q.1 p.1) && sort_ltb p.2 q.2).

Definition row_le (r r' : point F * nat) : Prop := row_ltb r'.1 r.1 = false.

#[local] Instance row_le_dec : RelDecision row_le.
Proof. intros r r'. unfold row_le. apply _. Defined.

(** The rows [np.unique(..., axis=0)] tells apart, each with the position of
    its first occurrence; [seen] holds the rows before position [i].  Rows
    are compared with [==]: a row equal to an earlier row is a repeat of it,
    and a row that holds a NaN, equal to no row, is never a repeat. *)
Fixpoint unique_rows (seen : list (point F)) (i : nat) (coords : list (point F))
    : list (point F * nat) :=
  match coords with
  | [] => []
  | p :: rest =>
      let later := unique_rows (seen ++ [p]) (S i) rest in
      if existsb (λ q, pt_eqb q p) seen then later else (p, i) :: later
  end.

(** The second result of [np.unique(coords, return_index=True, axis=0)]:
    for each distinct row, taken in sorted order, the position of its first
    occurrence in [coords]. *)
Definition np_unique_index (coords : list (point F)) : list nat :=
  snd <$> merge_sort row_le (unique_rows [] 0 coords).

(** [np.sort] of an integer array. *)
Definition np_sort (ix : list nat) : list nat := merge_sort le ix.

(** [x in a] for a tuple [x] and a two-dimensional array [a]: NumPy compares
    [x] with every row element by element, [a == x], and asks whether any
    single comparison holds. *)
Definition np_contains (a : list (point F)) (x : point F) : bool :=
  existsb (λ b, feqb b.1 x.1 || feqb b.2 x.2) a.

End Numpy.

(** ** ensure_unique *)

Section EnsureUnique.
Context {F : Type} `{!Scalar F}.

Definition ensure_unique (coords : list (point F)) : outcome (list (point F)) :=
  let ix := np_unique_index coords in
  np_take coords (np_sort ix).

End EnsureUnique.

(** ** The libraries behind the module *)

Definition triangle : Type := nat * nat * nat.

(** [meshpy.triangle.MeshInfo] after [set_points], [set_facets], [set_holes]. *)
Record MeshInfo (F : Type) : Type := {
  mi_points : list (point F);
  mi_facets : list (nat * nat);
  mi_holes : list (point F);
}.
Arguments mi_points {F} _.
Arguments mi_facets {F} _.
Arguments mi_holes {F} _.

(** What [triangle.build] returns: [mesh.points] and [mesh.elements]. *)
Record TriMesh (F : Type) : Type := {
  mesh_points : list (point F);
  mesh_elements : list triangle;
}.
Arguments mesh_points {F} _.
Arguments mesh_elements {F} _.

(** [meshpy.triangle.build(mesh_info, **kwargs)]; [None] when it raises. *)
Class Triangulator (F : Type) := {
  triangle_build : MeshInfo F → gmap string (pyval F) → option (TriMesh F);
}.

(** scipy and shapely; [None] when the call raises. *)
Class Geometry (F : Type) := {
  (** [spatial.ConvexHull(coords).simplices] *)
  convex_hull_simplices : list (point F) → option (list (nat * nat));
  (** [Polygon(ring).centroid.coords[0]] *)
  polygon_centroid : list (point F) → option (point F);
  (** a shapely [Polygon] *)
  polygon : Type;
  (** [list(polygonize(MultiLineString(segments)))] *)
  polygonize : list (point F * point F) → option (list polygon);
  (** [orient(p)] and [p.exterior.coords] *)
  orient : polygon → polygon;
  exterior_coords : polygon → list (point F);
}.

(** [tdgl.finite_volume.util.get_edge_lengths(points, triangles)], a helper
    of the repository outside the files at hand; [None] when it raises. *)
Class EdgeLengths (F : Type) := {
  get_edge_lengths : list (point F) → list triangle → option (list F);
}.

(** [optimesh.optimize_points_cells(points, cells, method, tol, steps,
    verbose=..., **kwargs)]; [None] when it raises. *)
Class MeshSmoother (F : Type) := {
  optimize_points_cells :
    list (point F) → list triangle → string → F → Z → bool →
    gmap string (pyval F) → option (list (point F) * list triangle);
}.

(** ** The engine and the record of its invocations *)

(** One call [triangle.build(mesh_info=..., **kwargs)]. *)
Definition EngineCall (F : Type) : Type := MeshInfo F * gmap string (pyval F).

(** Code that calls the engine: it extends the record of calls made so far. *)
Definition Eng (F A : Type) : Type :=
  list (EngineCall F) → outcome A * list (EngineCall F).

Definition eret {F A : Type} (a : A) : Eng F A := λ tr, (Ok a, tr).

Definition elift {F A : Type} (o : outcome A) : Eng F A := λ tr, (o, tr).

Definition ebind {F A B : Type} (m : Eng F A) (k : A → Eng F B) : Eng F B := λ tr,
  match m tr with
  | (Ok a, tr') => k a tr'
  | (Raise e, tr') => (Raise e, tr')
  | (OutOfFuel, tr') => (OutOfFuel, tr')
  end.

(** ** generate_mesh *)

Section Mesh.
Context {F : Type} `{!Scalar F, !Triangulator F, !Geometry F, !EdgeLengths F}.

#[local] Abbreviation kwargs := (gmap string (pyval F)).

(** [boundary - r0]: the list of tuples becomes a two-dimensional array;
    an empty list becomes an array of shape [(0,)], which does not broadcast
    against the shape [(1, 2)] of [r0]. *)
Definition boundary_minus (boundary : list (point F)) (r0 : point F) : outcome (list (point F)) :=
  match boundary with
  | [] => Raise BroadcastError
  | _ => Ok ((λ b, pt_sub b r0) <$> boundary)
  end.

(** [[i for i in indices if tuple(coords[i]) in boundary - r0]] *)
Fixpoint boundary_indices (coords boundary : list (point F)) (r0 : point F)
    (indices : list nat) : outcome (list nat) :=
  match indices with
  | [] => Ok []
  | i :: rest =>
      let* c := or_raise IndexError (coords !! i) in
      let* shifted := boundary_minus boundary r0 in
      let* kept := boundary_indices coords boundary r0 rest in
      Ok (if np_contains shifted c then i :: kept else kept)
  end.

(** The loop "Create facets for the holes": [indices[-1]] is the last
    element of [indices] and raises on an empty sequence. *)
Fixpoint hole_facets_loop (indices : list nat) (facets : list (nat * nat))
    (hole_coords : list (list (point F))) : outcome (list nat * list (nat * nat)) :=
  match hole_coords with
  | [] => Ok (indices, facets)
  | hole :: rest =>
      let* final := or_raise IndexError (last indices) in
      let hole_indices := np_arange (final + 1) (length hole) in
      let hole_facets := cycle_facets hole_indices in
      hole_facets_loop (indices ++ hole_indices) (facets ++ hole_facets) rest
  end.

(** What lines 54-100 compute before the engine is called. *)
Record MeshSetup : Type := {
  su_info : MeshInfo F;
  su_r0 : point F;
  su_dx : F;
  su_dy : F;
}.

(** [hole_coords] is the list of hole rings; the source turns [None] into
    the empty list first. *)
Definition mesh_setup (poly_coords : list (point F)) (hole_coords : list (list (point F)))
    (convex_hull : bool) (boundary : option (list (point F))) : outcome MeshSetup :=
  let* poly_coords := ensure_unique poly_coords in
  let* hole_coords := omapM ensure_unique hole_coords in
  let coords := poly_coords ++ concat hole_coords in
  let* xmin := np_min (fst <$> coords) in
  let* dx := np_ptp (fst <$> coords) in
  let* ymin := np_min (snd <$> coords) in
  let* dy := np_ptp (snd <$> coords) in
  let r0 := (fadd xmin (fdiv dx (flit 2 1)), fadd ymin (fdiv dy (flit 2 1))) in
  let coords := (λ c, pt_sub c r0) <$> coords in
  let indices := np_arange 0 (length poly_coords) in
  let* (indices, facets) :=
    if convex_hull then
      match boundary with
      | Some _ => Raise BoundaryWithConvexHull
      | None =>
          let* facets := or_raise QhullError (convex_hull_simplices coords) in
          Ok (indices, facets)
      end
    else
      let* indices :=
        match boundary with
        | Some boundary => boundary_indices coords boundary r0 indices
        | None => Ok indices
        end in
      Ok (indices, cycle_facets indices) in
  let* (_, facets) := hole_facets_loop indices facets hole_coords in
  (* [if hole_coords:] guards a comprehension that is empty without holes *)
  let* holes :=
    omapM (λ hole,
             let* c := or_raise ShapelyError (polygon_centroid hole) in
             Ok (pt_sub c r0)) hole_coords in
  Ok {| su_info := {| mi_points := coords; mi_facets := facets; mi_holes := holes |};
        su_r0 := r0; su_dx := dx; su_dy := dy |}.

(** *** The engine *)

#[local] Notation "'let+' x := m 'in' k" := (ebind m (λ x, k))
  (at level 10, x pattern, m at level 100, k at level 200).

(** [mesh = triangle.build(mesh_info=mesh_info, **kwargs);
     points = np.array(mesh.points) + r0; triangles = np.array(mesh.elements)] *)
Definition build (mesh_info : MeshInfo F) (kw : kwargs) (r0 : point F)
    : Eng F (list (point F) * list triangle) := λ tr,
  let tr := tr ++ [(mesh_info, kw)] in
  match triangle_build mesh_info kw with
  | Some mesh => (Ok ((λ p, pt_add p r0) <$> mesh_points mesh, mesh_elements mesh), tr)
  | None => (Raise EngineError, tr)
  end.

(** [get_edge_lengths(points, triangles).max()] *)
Definition max_edge (points : list (point F)) (triangles : list triangle) : outcome F :=
  let* lengths := or_raise IndexError (get_edge_lengths points triangles) in
  np_max lengths.

(** *** The refinement loop *)

(** The factor the area bound is multiplied by after an iteration. *)
Definition shrink_factor (max_edge_length max_length : F) : F :=
  if fisfinite max_edge_length
  then py_min (flit 98 100) (fsqrt (fdiv max_edge_length max_length))
  else flit 98 100.

(** [kwargs["max_volume"] *= factor] *)
Definition scale_max_volume (kw : kwargs) (factor : F) : outcome kwargs :=
  match kw !! "max_volume" with
  | Some (PyFloat v) => Ok (<["max_volume" := PyFloat (fmul v factor)]> kw)
  | Some _ => Raise TypeError
  | None => Raise KeyError
  end.

(** The loop condition
    [(points.shape[0] < min_points) or (max_length > max_edge_length)]. *)
Definition needs_refinement (min_points : Z) (max_edge_length : F)
    (points : list (point F)) (max_length : F) : bool :=
  (Z.of_nat (length points) <? min_points)%Z || fltb max_edge_length max_length.

(** The [while] loop of lines 116-130; [fuel] bounds the number of
    iterations, and the loop gives [OutOfFuel] when it would run longer. *)
Fixpoint refine (fuel : nat) (mesh_info : MeshInfo F) (r0 : point F)
    (min_points : Z) (max_edge_length : F) (kw : kwargs)
    (points : list (point F)) (triangles : list triangle) (max_length : F)
    : Eng F (list (point F) * list triangle) :=
  if needs_refinement min_points max_edge_length points max_length then
    match fuel with
    | 0 => elift OutOfFuel
    | S fuel =>
        let+ (points, triangles) := build mesh_info kw r0 in
        let+ max_length := elift (max_edge points triangles) in
        let+ kw := elift (scale_max_volume kw (shrink_factor max_edge_length max_length)) in
        refine fuel mesh_info r0 min_points max_edge_length kw points triangles max_length
    end
  else eret (points, triangles).

(** [max_edge_length is None or max_edge_length <= 0] *)
Definition no_edge_target (max_edge_length : option F) : bool :=
  match max_edge_length with
  | None => true
  | Some l => fleb l (flit 0 1)
  end.

Definition generate_mesh (fuel : nat) (poly_coords : list (point F))
    (hole_coords : list (list (point F))) (min_points : option Z)
    (max_edge_length : option F) (convex_hull : bool)
    (boundary : option (list (point F))) (kw : kwargs)
    : Eng F (list (point F) * list triangle) :=
  let+ su := elift (mesh_setup poly_coords hole_coords convex_hull boundary) in
  let+ (points, triangles) := build (su_info su) kw (su_r0 su) in
  if bool_decide (min_points = None) && no_edge_target max_edge_length then
    eret (points, triangles)
  else
    let kw := <["max_volume" := PyFloat (fdiv (fmul (su_dx su) (su_dy su)) (flit 100 1))]> kw in
    let min_points := default 0%Z min_points in
    let max_edge_length :=
      if no_edge_target max_edge_length then finf else default finf max_edge_length in
    let+ max_length := elift (max_edge points triangles) in
    refine fuel (su_info su) (su_r0 su) min_points max_edge_length kw
      points triangles max_length.

End Mesh.

(** ** optimize_mesh *)

Section Optimize.
Context {F : Type} `{!Scalar F, !MeshSmoother F}.

Definition optimize_mesh (points : list (point F)) (triangles : list triangle)
    (steps : Z) (method : string) (tolerance : F) (verbose : bool)
    (kw : gmap string (pyval F)) : outcome (list (point F) * list triangle) :=
  let* (points, triangles) :=
    or_raise OptimeshError
      (optimize_points_cells points triangles method tolerance steps verbose kw) in
  Ok (points, triangles).

End Optimize.

(** ** oriented_boundary *)

Section Boundary.
Context {F : Type} `{!Scalar F, !Geometry F}.

(** [points[edge, :]]: the two end points of a boundary edge. *)
Definition edge_segment (points : list (point F)) (edge : Z * Z)
    : outcome (point F * point F) :=
  let* a := np_get points edge.1 in
  let* b := np_get points edge.2 in
  Ok (a, b).

(** [np.array([points_list.index(xy) for xy in polygon.exterior.coords])] *)
Definition lookup_indices (points_list : list (point F)) (ring : list (point F))
    : outcome (list nat) :=
  omapM (λ xy, or_raise NotInList (index_of pt_eqb xy points_list)) ring.

Definition oriented_boundary (points : list (point F)) (boundary_edges : list (Z * Z))
    : outcome (list (list nat)) :=
  let points_list := points in
  let* edges := omapM (edge_segment points) boundary_edges in
  let* polygons := or_raise ShapelyError (polygonize edges) in
  omapM (λ p,
           let polygon := orient p in
           let* indices := lookup_indices points_list (exterior_coords polygon) in
           (* [indices[:-1]] *)
           Ok (removelast indices)) polygons.

End Boundary.

(** * Notions used to state the properties *)

Section Notions.
Context {F : Type} `{!Scalar F, !Triangulator F, !EdgeLengths F}.

(** Position [i] holds the first occurrence of its row: no row before it is
    [==] to it. *)
Definition first_at (coords : list (point F)) (i : nat) : Prop :=
  match coords !! i with
  | Some p => Forall (λ q, pt_eqb q p = false) (take i coords)
  | None => False
  end.

#[export] Instance first_at_dec (coords : list (point F)) (i : nat)
  : Decision (first_at coords i).
Proof. unfold first_at. destruct (coords !! i); apply _. Defined.

(** The first-occurrence positions in increasing order. *)
Definition first_positions (coords : list (point F)) : list nat :=
  filter (first_at coords) (seq 0 (length coords)).

(** Index [i] survives the boundary filter: some boundary point, shifted by
    [r0], is [==] to [coords[i]] in at least one component. *)
Definition partial_match (coords boundary : list (point F)) (r0 : point F)
    (i : nat) : Prop :=
  ∃ c b, coords !! i = Some c ∧ b ∈ boundary ∧
         (feqb (fsub b.1 r0.1) c.1 = true ∨ feqb (fsub b.2 r0.2) c.2 = true).

(** The facets of the holes when the hole loop starts after index [final]:
    one closed cycle per hole, each starting where the one before ends. *)
Fixpoint hole_cycles (start : nat) (holes : list (list (point F)))
    : list (nat * nat) :=
  match holes with
  | [] => []
  | hole :: rest =>
      cycle_facets (np_arange start (length hole)) ++
      hole_cycles (start + length hole) rest
  end.

(** The area bound a call passes to the engine. *)
Definition area_bound (c : EngineCall F) : option F :=
  match c.2 !! "max_volume" with
  | Some (PyFloat v) => Some v
  | _ => None
  end.

(** The largest edge length of the mesh the engine builds for a call. *)
Definition measured (r0 : point F) (c : EngineCall F) : outcome F :=
  match triangle_build c.1 c.2 with
  | Some mesh =>
      max_edge ((λ p, pt_add p r0) <$> mesh_points mesh) (mesh_elements mesh)
  | None => Raise EngineError
  end.

(** [calls] start at the area bound [v], and each later call multiplies the
    bound of the call before it by the factor for the mesh that call built. *)
Fixpoint bounds_follow (r0 : point F) (max_edge_length v : F)
    (calls : list (EngineCall F)) : Prop :=
  match calls with
  | [] => True
  | c :: rest =>
      area_bound c = Some v ∧
      match rest with
      | [] => True
      | _ => ∃ m, measured r0 c = Ok m ∧
                  bounds_follow r0 max_edge_length
                    (fmul v (shrink_factor max_edge_length m)) rest
      end
  end.

(** The options of a call are the caller's, the area bound apart. *)
Definition forwards (kw : gmap string (pyval F)) (mesh_info : MeshInfo F)
    (c : EngineCall F) : Prop :=
  c.1 = mesh_info ∧ ∀ k, k ≠ "max_volume" → c.2 !! k = kw !! k.

(** The target the loop works with: [np.inf] stands for "no target". *)
Definition edge_target (max_edge_length : option F) : F :=
  if no_edge_target max_edge_length then finf else default finf max_edge_length.

(** The mesh a call to the engine yields, moved back by [r0]. *)
Definition built (r0 : point F) (c : EngineCall F)
    : outcome (list (point F) * list triangle) :=
  match triangle_build c.1 c.2 with
  | Some mesh => Ok ((λ p, pt_add p r0) <$> mesh_points mesh, mesh_elements mesh)
  | None => Raise EngineError
  end.

End Notions.

(** * Properties *)

(** ** Outcomes *)

Lemma obind_Ok {A B : Type} (m : outcome A) (k : A → outcome B) (b : B) :
  obind m k = Ok b ↔ ∃ a, m = Ok a ∧ k a = Ok b.
Proof.
  destruct m as [a| |]; simpl.
  - split; [eauto | by intros (? & [= <-] & ?)].
  - split; [done | by intros (? & ? & ?)].
  - split; [done | by intros (? & ? & ?)].
Qed.

Lemma or_raise_Ok {A : Type} (e : exn) (o : option A) (a : A) :
  or_raise e o = Ok a ↔ o = Some a.
Proof. destruct o; simpl; naive_solver. Qed.

Lemma omapM_Ok {A B : Type} (f : A → outcome B) (l : list A) (k : list B) :
  omapM f l = Ok k ↔ Forall2 (λ x y, f x = Ok y) l k.
Proof.
  revert k. induction l as [|x l IH]; intros k; simpl.
  - split; [intros [= <-]; constructor | by inversion 1].
  - rewrite obind_Ok. split.
    + intros (y & Hy & Hk). apply obind_Ok in Hk as (ys & Hys & [= <-]).
      constructor; [done | by apply IH].
    + inversion 1 as [|? y ? ys Hy Hys]; subst.
      exists y. split; [done |]. apply IH in Hys. by rewrite Hys.
Qed.

(** ** Python's [list.index] *)

Section IndexOf.
Context {A : Type} (eqb : A → A → bool).
Implicit Types (l : list A) (x y : A) (i j : nat).

Lemma index_of_Some l x i :
  index_of eqb x l = Some i ↔
  (∃ y, l !! i = Some y ∧ eqb y x = true) ∧
  ∀ j y, j < i → l !! j = Some y → eqb y x = false.
Proof.
  revert i. induction l as [|z l IH]; intros i; simpl.
  - split; [done | by intros [(y & ? & _) _]].
  - destruct (eqb z x) eqn:Hz.
    + split.
      * intros [= <-]. split; [by exists z | lia].
      * intros [_ Hfirst]. destruct i as [|i]; [done |].
        specialize (Hfirst 0 z). simpl in Hfirst.
        rewrite Hfirst in Hz by (done || lia). done.
    + split.
      * intros (k & Hk & ->)%fmap_Some. apply IH in Hk as [Hk Hfirst].
        split; [done |].
        intros [|j] y Hj; simpl; [by intros [= <-] | apply Hfirst; lia].
      * intros [(y & Hy & Hyx) Hfirst]. destruct i as [|i]; simpl in *;
          [congruence |].
        apply fmap_Some. exists i. split; [| done].
        apply IH. split; [by exists y |].
        intros j y' Hj. apply (Hfirst (S j)). lia.
Qed.

Lemma index_of_None l x :
  index_of eqb x l = None ↔ ∀ y, y ∈ l → eqb y x = false.
Proof.
  induction l as [|z l IH]; simpl.
  - split; [by intros _ y ?%elem_of_nil | done].
  - destruct (eqb z x) eqn:Hz.
    + split; [done |]. intros Hall. rewrite Hall in Hz by left. done.
    + rewrite fmap_None, IH. split.
      * intros Hall y [-> | Hy]%elem_of_cons; [done | by apply Hall].
      * intros Hall y Hy. apply Hall. by right.
Qed.

Lemma index_of_elem l x y :
  y ∈ l → eqb y x = true → ∃ i, index_of eqb x l = Some i.
Proof.
  intros Hy Hyx. destruct (index_of eqb x l) as [i|] eqn:Hi; [by exists i |].
  rewrite index_of_None in Hi. rewrite (Hi y Hy) in Hyx. done.
Qed.

Lemma index_of_lt l x i : index_of eqb x l = Some i → i < length l.
Proof.
  intros [(y & Hy & _) _]%index_of_Some. by apply lookup_lt_Some in Hy.
Qed.

End IndexOf.

(** ** ensure_unique *)

Section EnsureUniqueFacts.
Context {F : Type} `{!Scalar F}.
Implicit Types (coords out seen : list (point F)) (p q : point F) (i j : nat).

Lemma pt_eqb_sym p q : pt_eqb p q = pt_eqb q p.
Proof. unfold pt_eqb. by rewrite (feqb_sym p.1), (feqb_sym p.2). Qed.

Lemma pt_eqb_trans p q r :
  pt_eqb p q = true → pt_eqb q r = true → pt_eqb p r = true.
Proof.
  unfold pt_eqb. rewrite !andb_true_iff.
  intros [? ?] [? ?]. split; by eapply feqb_trans.
Qed.

(** A row that differs from itself, one with a NaN, is equal to no row. *)
Lemma pt_eqb_irrefl p q : pt_eqb p p = false → pt_eqb q p = false.
Proof.
  intros Hp. destruct (pt_eqb q p) eqn:Hq; [| done].
  rewrite <- Hp. symmetry. eapply pt_eqb_trans; [| done].
  by rewrite pt_eqb_sym.
Qed.

Lemma first_at_spec coords i :
  first_at coords i ↔
  ∃ p, coords !! i = Some p ∧
       ∀ j q, j < i → coords !! j = Some q → pt_eqb q p = false.
Proof.
  unfold first_at. destruct (coords !! i) as [p|] eqn:Hp.
  - rewrite Forall_lookup. split.
    + intros Hall. exists p. split; [done |]. intros j q Hj Hq.
      apply (Hall j). by apply lookup_take_Some.
    + intros (p' & [= <-] & Hfirst) j q [Hq Hj]%lookup_take_Some.
      by eapply Hfirst.
  - split; [done | by intros (p & ? & _)].
Qed.

Lemma elem_of_first_positions coords i :
  i ∈ first_positions coords ↔ first_at coords i.
Proof.
  unfold first_positions. rewrite list_elem_of_filter, elem_of_seq.
  split; [by intros [? _] |]. intros Hi. split; [done |].
  apply first_at_spec in Hi as (p & Hp & _). apply lookup_lt_Some in Hp. lia.
Qed.

Lemma StronglySorted_le_seq j n : StronglySorted le (seq j n).
Proof.
  revert j. induction n as [|n IH]; intros j; simpl; constructor; [apply IH |].
  apply Forall_forall. intros k Hk%elem_of_seq. lia.
Qed.

Lemma StronglySorted_le_filter (P : nat → Prop) `{∀ k, Decision (P k)} (l : list nat) :
  StronglySorted le l → StronglySorted le (filter P l).
Proof.
  induction 1 as [|k l Hl IH Hk]; [constructor |].
  rewrite filter_cons. destruct (decide (P k)); [| done].
  constructor; [done |]. apply Forall_forall.
  intros k' [_ Hk']%list_elem_of_filter. by eapply Forall_forall in Hk.
Qed.

Lemma first_positions_sorted coords : StronglySorted le (first_positions coords).
Proof. apply StronglySorted_le_filter, StronglySorted_le_seq. Qed.

Lemma first_positions_NoDup coords : NoDup (first_positions coords).
Proof. apply NoDup_filter, NoDup_seq. Qed.

Lemma existsb_false_Forall seen p :
  existsb (λ q, pt_eqb q p) seen = false ↔ Forall (λ q, pt_eqb q p = false) seen.
Proof.
  induction seen as [|q seen IH]; simpl.
  - split; [constructor | done].
  - rewrite orb_false_iff, IH, Forall_cons. tauto.
Qed.

(** The rows [unique_rows] keeps: those equal to no row before them. *)
Lemma elem_of_unique_rows seen i coords p k :
  (p, k) ∈ unique_rows seen i coords ↔
  ∃ j, k = i + j ∧ coords !! j = Some p ∧
       Forall (λ q, pt_eqb q p = false) (seen ++ take j coords).
Proof.
  revert seen i. induction coords as [|p0 rest IH]; intros seen i.
  - simpl. rewrite elem_of_nil. split; [done | by intros (j & _ & ? & _)].
  - cbn [unique_rows].
    assert ((p, k) ∈ unique_rows (seen ++ [p0]) (S i) rest ↔
            ∃ j, k = i + S j ∧ (p0 :: rest) !! S j = Some p ∧
                 Forall (λ q, pt_eqb q p = false)
                   (seen ++ take (S j) (p0 :: rest))) as Hlater.
    { rewrite IH. split; intros (j & -> & Hj & Hall); exists j;
        (split; [lia |]); (split; [done |]); simpl;
        by rewrite <- app_assoc in *. }
    assert ((p, k) = (p0, i) ∧ Forall (λ q, pt_eqb q p0 = false) seen ↔
            ∃ j, k = i + j ∧ j = 0 ∧ (p0 :: rest) !! j = Some p ∧
                 Forall (λ q, pt_eqb q p = false)
                   (seen ++ take j (p0 :: rest))) as Hhere.
    { split.
      - intros [[= -> ->] Hall]. exists 0. simpl. rewrite app_nil_r.
        split_and!; [lia | done..].
      - intros (j & -> & -> & [= ->] & Hall). simpl in Hall.
        rewrite app_nil_r in Hall. split; [f_equal; lia | done]. }
    destruct (existsb (λ q, pt_eqb q p0) seen) eqn:Hseen.
    + rewrite Hlater. split.
      * intros (j & ? & ? & ?). by exists (S j).
      * intros ([|j] & Hk & Hj & Hall); [| by exists j].
        exfalso. simpl in Hj, Hall. injection Hj as <-.
        rewrite app_nil_r in Hall. apply existsb_false_Forall in Hall.
        congruence.
    + apply existsb_false_Forall in Hseen. rewrite elem_of_cons, Hlater.
      split.
      * intros [Heq | (j & ? & ? & ?)]; [| by exists (S j)].
        destruct (proj1 Hhere (conj Heq Hseen)) as (j & ? & _ & ? & ?).
        by exists j.
      * intros ([|j] & Hk & Hj & Hall); [left | right; by exists j].
        apply Hhere. by exists 0.
Qed.

Lemma unique_rows_positions seen i coords :
  Forall (λ k, i ≤ k) (snd <$> unique_rows seen i coords) ∧
  NoDup (snd <$> unique_rows seen i coords).
Proof.
  revert seen i. induction coords as [|p0 rest IH]; intros seen i.
  - split; constructor.
  - cbn [unique_rows]. destruct (IH (seen ++ [p0]) (S i)) as [Hge Hnd].
    assert (Forall (λ k, i ≤ k) (snd <$> unique_rows (seen ++ [p0]) (S i) rest))
      as Hge' by (eapply Forall_impl; [done | simpl; lia]).
    destruct (existsb _ seen); [done |]. rewrite fmap_cons. simpl. split.
    + by constructor.
    + constructor; [| done]. intros Hi.
      eapply Forall_forall in Hge; [| done]. simpl in Hge. lia.
Qed.

Lemma elem_of_np_unique_index coords i :
  i ∈ np_unique_index coords ↔ first_at coords i.
Proof.
  unfold np_unique_index. rewrite list_elem_of_fmap. split.
  - intros ([p k] & -> & Hr). rewrite merge_sort_Permutation in Hr.
    apply elem_of_unique_rows in Hr as (j & -> & Hj & Hall). simpl.
    unfold first_at. by rewrite Hj.
  - unfold first_at. destruct (coords !! i) as [p|] eqn:Hp; [| done].
    intros Hall. exists (p, i). split; [done |].
    rewrite merge_sort_Permutation. apply elem_of_unique_rows. by exists i.
Qed.

Lemma np_unique_index_NoDup coords : NoDup (np_unique_index coords).
Proof.
  unfold np_unique_index. rewrite merge_sort_Permutation.
  apply unique_rows_positions.
Qed.

(** Sorting the positions [np.unique] reports gives back the order of the
    input, whatever order the rows were sorted in. *)
Lemma np_sort_unique_index coords :
  np_sort (np_unique_index coords) = first_positions coords.
Proof.
  apply (StronglySorted_unique le).
  - apply StronglySorted_merge_sort; apply _.
  - apply first_positions_sorted.
  - unfold np_sort. rewrite merge_sort_Permutation.
    apply NoDup_Permutation;
      [apply np_unique_index_NoDup | apply first_positions_NoDup |].
    intros i. by rewrite elem_of_np_unique_index, elem_of_first_positions.
Qed.

Lemma np_take_Ok {A : Type} (a : list A) (ix : list nat) (xs : list A) :
  np_take a ix = Ok xs ↔ Forall2 (λ i x, a !! i = Some x) ix xs.
Proof.
  unfold np_take. rewrite omapM_Ok.
  split; intros Hall; eapply Forall2_impl; try apply Hall;
    intros i x; by rewrite or_raise_Ok.
Qed.

Lemma np_take_in_range {A : Type} (a : list A) (ix : list nat) :
  Forall (λ i, i < length a) ix → ∃ xs, np_take a ix = Ok xs.
Proof.
  induction 1 as [|i ix Hi _ [xs IH]]; [by exists [] |].
  apply lookup_lt_is_Some in Hi as [x Hx]. exists (x :: xs).
  apply np_take_Ok. constructor; [done | by apply np_take_Ok].
Qed.

(** [ensure_unique] never raises: it reads the input at its first-occurrence
    positions, in increasing order. *)
Lemma ensure_unique_Ok coords :
  ∃ out, ensure_unique coords = Ok out ∧
         Forall2 (λ i p, coords !! i = Some p) (first_positions coords) out.
Proof.
  unfold ensure_unique. rewrite np_sort_unique_index.
  destruct (np_take_in_range coords (first_positions coords)) as [out Hout].
  - apply Forall_forall. intros i Hi%elem_of_first_positions.
    apply first_at_spec in Hi as (p & Hp & _). by eapply lookup_lt_Some.
  - exists out. split; [done | by apply np_take_Ok].
Qed.

Lemma ensure_unique_positions coords out :
  ensure_unique coords = Ok out →
  Forall2 (λ i p, coords !! i = Some p) (first_positions coords) out.
Proof.
  intros Hout. destruct (ensure_unique_Ok coords) as (out' & Hout' & Hpos).
  congruence.
Qed.

Lemma StronglySorted_le_lt (l : list nat) :
  StronglySorted le l → NoDup l → StronglySorted lt l.
Proof.
  induction 1 as [|k l Hl IH Hk]; [constructor |].
  intros [Hnotin Hnd]%NoDup_cons. constructor; [by apply IH |].
  apply Forall_forall. intros k' Hk'.
  eapply Forall_forall in Hk; [| done].
  assert (k ≠ k') by (by intros ->). lia.
Qed.

Lemma StronglySorted_lt_lookup (l : list nat) (a b i j : nat) :
  StronglySorted lt l → a < b → l !! a = Some i → l !! b = Some j → i < j.
Proof.
  intros Hl. revert a b. induction Hl as [|k l Hl IH Hk]; intros a b Hab Ha Hb;
    [done |].
  destruct b as [|b]; [lia |]. simpl in Hb. destruct a as [|a]; simpl in Ha.
  - injection Ha as ->. eapply Forall_forall in Hk; [done |].
    by eapply list_elem_of_lookup_2.
  - eapply (IH a b); [lia | done..].
Qed.

(** Every row of the result is a row of the input. *)
Lemma ensure_unique_sub coords out p :
  ensure_unique coords = Ok out → p ∈ out → p ∈ coords.
Proof.
  intros Hpos%ensure_unique_positions (k & Hk)%list_elem_of_lookup_1.
  destruct (Forall2_lookup_r _ _ _ _ _ Hpos Hk) as (i & _ & Hi).
  by eapply list_elem_of_lookup_2.
Qed.

(** No two rows of the result are equal. *)
Lemma ensure_unique_distinct coords out (a b : nat) p q :
  ensure_unique coords = Ok out →
  a < b → out !! a = Some p → out !! b = Some q → pt_eqb p q = false.
Proof.
  intros Hpos%ensure_unique_positions Hab Ha Hb.
  destruct (Forall2_lookup_r _ _ _ _ _ Hpos Ha) as (i & Hia & Hi).
  destruct (Forall2_lookup_r _ _ _ _ _ Hpos Hb) as (j & Hjb & Hj).
  assert (i < j) as Hij.
  { eapply (StronglySorted_lt_lookup (first_positions coords) a b); [| done..].
    apply StronglySorted_le_lt;
      [apply first_positions_sorted | apply first_positions_NoDup]. }
  assert (first_at coords j) as (q' & Hq' & Hfirst)%first_at_spec.
  { apply elem_of_first_positions. by eapply list_elem_of_lookup_2. }
  assert (q' = q) as -> by congruence. by eapply Hfirst.
Qed.

(** Every row of the input that is equal to itself is equal to a row of the
    result: the first row of the input equal to it. *)
Lemma ensure_unique_covers coords out p :
  ensure_unique coords = Ok out →
  p ∈ coords → pt_eqb p p = true → ∃ q, q ∈ out ∧ pt_eqb q p = true.
Proof.
  intros Hpos%ensure_unique_positions Hp Hpp.
  destruct (index_of_elem pt_eqb coords p p Hp Hpp) as [j Hj].
  apply index_of_Some in Hj as [(q & Hq & Hqp) Hfirst].
  assert (j ∈ first_positions coords) as (k & Hk)%list_elem_of_lookup_1.
  { apply elem_of_first_positions, first_at_spec. exists q. split; [done |].
    intros j' q' Hlt Hq'. destruct (pt_eqb q' q) eqn:Heq; [| done].
    rewrite <- (Hfirst j' q' Hlt Hq'). symmetry. by eapply pt_eqb_trans. }
  destruct (Forall2_lookup_l _ _ _ _ _ Hpos Hk) as (q' & Hq' & Hjq').
  assert (q' = q) as -> by congruence.
  exists q. split; [by eapply list_elem_of_lookup_2 | done].
Qed.

(** A row that holds a NaN is never taken for a repeat. *)
Lemma first_at_nan coords i p :
  coords !! i = Some p → pt_eqb p p = false → first_at coords i.
Proof.
  intros Hp Hnan. apply first_at_spec. exists p. split; [done |].
  intros j q _ _. by apply pt_eqb_irrefl.
Qed.

Lemma filter_Forall (P : nat → Prop) `{∀ k, Decision (P k)} (l : list nat) :
  Forall P l → filter P l = l.
Proof.
  induction 1 as [|k l Hk _ IH]; [done |].
  by rewrite filter_cons_True, IH.
Qed.

Lemma first_positions_all coords :
  (∀ i j p q, i < j → coords !! i = Some p → coords !! j = Some q →
              pt_eqb p q = false) →
  first_positions coords = seq 0 (length coords).
Proof.
  intros Hnd. unfold first_positions. apply filter_Forall.
  apply Forall_forall. intros j [_ Hj]%elem_of_seq.
  apply lookup_lt_is_Some in Hj as [q Hq]. apply first_at_spec.
  exists q. split; [done |]. intros i p Hij Hp. by eapply Hnd.
Qed.

Lemma ensure_unique_fixed coords out :
  ensure_unique coords = Ok out →
  (∀ i j p q, i < j → coords !! i = Some p → coords !! j = Some q →
              pt_eqb p q = false) →
  out = coords.
Proof.
  intros Hpos%ensure_unique_positions Hnd.
  rewrite first_positions_all in Hpos by done.
  apply list_eq. intros k. destruct (coords !! k) as [p|] eqn:Hk.
  - assert (seq 0 (length coords) !! k = Some k) as Hseq.
    { apply lookup_seq. split; [done | by eapply lookup_lt_Some]. }
    destruct (Forall2_lookup_l _ _ _ _ _ Hpos Hseq) as (q & Hq & Hkq).
    congruence.
  - apply lookup_ge_None. apply lookup_ge_None in Hk.
    apply Forall2_length in Hpos. rewrite length_seq in Hpos. lia.
Qed.

Lemma ensure_unique_shorter coords out :
  ensure_unique coords = Ok out →
  (∃ i j p q, i < j ∧ coords !! i = Some p ∧ coords !! j = Some q ∧
              pt_eqb p q = true) →
  length out < length coords.
Proof.
  intros Hpos%ensure_unique_positions (i & j & p & q & Hij & Hp & Hq & Hpq).
  apply Forall2_length in Hpos. rewrite <- Hpos. unfold first_positions.
  assert (j ∈ seq 0 (length coords)) as Hj.
  { apply elem_of_seq. apply lookup_lt_Some in Hq. lia. }
  assert (¬ first_at coords j) as Hnot.
  { intros (q' & Hq' & Hfirst)%first_at_spec.
    assert (q' = q) as -> by congruence.
    rewrite (Hfirst i p Hij Hp) in Hpq. done. }
  pose proof (length_filter_lt (first_at coords) _ j Hj Hnot) as Hlt.
  by rewrite length_seq in Hlt.
Qed.

Lemma ensure_unique_nil coords out :
  ensure_unique coords = Ok out → out = [] ↔ coords = [].
Proof.
  intros Hout. split; intros ->.
  - destruct coords as [|p coords]; [done |]. exfalso.
    apply ensure_unique_positions in Hout.
    assert (0 ∈ first_positions (p :: coords)) as Hin.
    { apply elem_of_first_positions, first_at_spec. exists p.
      split; [done | lia]. }
    apply Forall2_length in Hout. simpl in Hout.
    destruct (first_positions (p :: coords)); [| done].
    by apply elem_of_nil in Hin.
  - destruct out as [|p out]; [done |].
    assert (p ∈ @nil (point F)) as Hin by (eapply ensure_unique_sub; [done | left]).
    by apply elem_of_nil in Hin.
Qed.

(** C3 (amended): [ensure_unique] returns the rows of the input at the
    strictly increasing positions [ix] that hold a row for the first time,
    where rows are compared with NumPy's [==] on both components: [0.0] and
    [-0.0] are equal, and a row that holds a NaN is equal to no row.  No two
    rows of the result are equal, every row of the result is a row of the
    input, and every row of the input that is equal to itself is equal to a
    row of the result; rows that hold a NaN are all kept.  An input without
    two equal rows is returned unchanged, and an input with two equal rows
    gives a strictly shorter result. *)
Theorem ensure_unique_first_occurrences coords :
  ∃ out ix,
    ensure_unique coords = Ok out ∧
    StronglySorted lt ix ∧
    (∀ i, i ∈ ix ↔
          ∃ p, coords !! i = Some p ∧
               ∀ j q, j < i → coords !! j = Some q → pt_eqb q p = false) ∧
    Forall2 (λ i p, coords !! i = Some p) ix out ∧
    (∀ a b p q, a < b → out !! a = Some p → out !! b = Some q →
                pt_eqb p q = false) ∧
    (∀ p, p ∈ out → p ∈ coords) ∧
    (∀ p, p ∈ coords → pt_eqb p p = true → ∃ q, q ∈ out ∧ pt_eqb q p = true) ∧
    (∀ i p, coords !! i = Some p → pt_eqb p p = false → i ∈ ix) ∧
    ((∀ i j p q, i < j → coords !! i = Some p → coords !! j = Some q →
                 pt_eqb p q = false) →
     out = coords) ∧
    ((∃ i j p q, i < j ∧ coords !! i = Some p ∧ coords !! j = Some q ∧
                 pt_eqb p q = true) →
     length out < length coords).
Proof.
  destruct (ensure_unique_Ok coords) as (out & Hout & Hpos).
  exists out, (first_positions coords). split_and!.
  - done.
  - apply StronglySorted_le_lt;
      [apply first_positions_sorted | apply first_positions_NoDup].
  - intros i. by rewrite elem_of_first_positions, first_at_spec.
  - done.
  - intros a b p q. by apply (ensure_unique_distinct coords).
  - intros p. by apply (ensure_unique_sub coords).
  - intros p. by apply (ensure_unique_covers coords).
  - intros i p Hp Hnan. apply elem_of_first_positions. by eapply first_at_nan.
  - by apply ensure_unique_fixed.
  - by apply ensure_unique_shorter.
Qed.

End EnsureUniqueFacts.

(** ** generate_mesh *)

Section MeshFacts.
Context {F : Type} `{!Scalar F, !Triangulator F, !Geometry F, !EdgeLengths F}.
Implicit Types (poly_coords : list (point F)) (hole_coords : list (list (point F))).
Implicit Types (kw : gmap string (pyval F)) (tr calls : list (EngineCall F)).
Implicit Types (boundary : option (list (point F))).

Lemma omapM_ensure_unique_Ok hole_coords :
  ∃ holes, omapM ensure_unique hole_coords = Ok holes ∧
           Forall2 (λ hole hole', ensure_unique hole = Ok hole') hole_coords holes.
Proof.
  induction hole_coords as [|hole rest (holes & Hholes & Hall)]; simpl.
  - exists []. by split; [| constructor].
  - destruct (ensure_unique_Ok hole) as (hole' & Hhole & _).
    exists (hole' :: holes). rewrite Hhole, Hholes. simpl.
    split; [done | by constructor].
Qed.

Lemma concat_ensure_unique_nil hole_coords holes :
  Forall2 (λ hole hole', ensure_unique hole = Ok hole') hole_coords holes →
  concat holes = [] ↔ concat hole_coords = [].
Proof.
  induction 1 as [|hole hole' rest holes Hhole _ IH]; simpl; [done |].
  pose proof (ensure_unique_nil _ _ Hhole) as Hnil.
  rewrite !app_nil. tauto.
Qed.

Lemma np_min_Ok (a : list F) : a ≠ [] → ∃ m, np_min a = Ok m.
Proof. destruct a; [done | eauto]. Qed.

Lemma np_ptp_Ok (a : list F) : a ≠ [] → ∃ m, np_ptp a = Ok m.
Proof. destruct a; [done | eauto]. Qed.

(** Lines 54-74: with [convex_hull=True] and a boundary the setup raises;
    which error depends only on whether there is any coordinate at all. *)
Lemma mesh_setup_convex_hull_boundary poly_coords hole_coords (b : list (point F)) :
  mesh_setup poly_coords hole_coords true (Some b) =
  Raise (if decide (poly_coords ++ concat hole_coords = [])
         then ZeroSizeReduction else BoundaryWithConvexHull).
Proof.
  unfold mesh_setup.
  destruct (ensure_unique_Ok poly_coords) as (poly & Hpoly & _).
  destruct (omapM_ensure_unique_Ok hole_coords) as (holes & Hholes & Hall).
  rewrite Hpoly, Hholes. simpl.
  pose proof (ensure_unique_nil _ _ Hpoly) as Hpnil.
  pose proof (concat_ensure_unique_nil _ _ Hall) as Hhnil.
  destruct (decide (poly_coords ++ concat hole_coords = [])) as [Hnil|Hsome].
  - apply app_nil in Hnil as [Hp Hh].
    apply Hpnil in Hp as ->. apply Hhnil in Hh as ->. done.
  - assert (poly ++ concat holes ≠ []) as Hne.
    { rewrite app_nil. rewrite app_nil in Hsome. tauto. }
    destruct (np_min_Ok (fst <$> poly ++ concat holes)) as [xmin ->].
    { by intros ?%fmap_nil_inv. }
    destruct (np_ptp_Ok (fst <$> poly ++ concat holes)) as [dx ->].
    { by intros ?%fmap_nil_inv. }
    destruct (np_min_Ok (snd <$> poly ++ concat holes)) as [ymin ->].
    { by intros ?%fmap_nil_inv. }
    destruct (np_ptp_Ok (snd <$> poly ++ concat holes)) as [dy ->].
    { by intros ?%fmap_nil_inv. }
    done.
Qed.

(** C1 (amended): with [convex_hull=True] and a boundary, [generate_mesh]
    fails before any engine invocation and builds no mesh.  The error is the
    invalid-configuration error whenever the polygon and hole rings hold at
    least one coordinate; with no coordinate at all the bounding-box
    reduction of line 62 has already failed. *)
Theorem convex_hull_with_boundary_fails (fuel : nat) poly_coords hole_coords
    (min_points : option Z) (max_edge_length : option F)
    (b : list (point F)) kw :
  generate_mesh fuel poly_coords hole_coords min_points max_edge_length
    true (Some b) kw [] =
  (Raise (if decide (poly_coords ++ concat hole_coords = [])
          then ZeroSizeReduction else BoundaryWithConvexHull), []).
Proof.
  unfold generate_mesh, ebind, elift.
  by rewrite mesh_setup_convex_hull_boundary.
Qed.

(** *** The calls the refinement loop makes *)

Lemma refine_unfold fuel mesh_info r0 min_points max_edge_length kw points
    triangles max_length :
  refine fuel mesh_info r0 min_points max_edge_length kw points triangles max_length =
  if needs_refinement min_points max_edge_length points max_length then
    match fuel with
    | 0 => elift OutOfFuel
    | S fuel =>
        ebind (build mesh_info kw r0) (λ '(points, triangles),
        ebind (elift (max_edge points triangles)) (λ max_length,
        ebind (elift (scale_max_volume kw (shrink_factor max_edge_length max_length)))
          (λ kw, refine fuel mesh_info r0 min_points max_edge_length kw
                   points triangles max_length)))
    end
  else eret (points, triangles).
Proof. by destruct fuel. Qed.

Lemma scale_max_volume_Ok kw kw' factor :
  scale_max_volume kw factor = Ok kw' →
  ∃ v, kw !! "max_volume" = Some (PyFloat v) ∧
       kw' = <["max_volume" := PyFloat (fmul v factor)]> kw.
Proof.
  unfold scale_max_volume. intros Hkw.
  destruct (kw !! "max_volume") as [[v| | |]|]; simplify_eq. eauto.
Qed.

Lemma refine_calls fuel mesh_info r0 min_points max_edge_length kw0 kw v points
    triangles max_length tr :
  (∀ k, k ≠ "max_volume" → kw !! k = kw0 !! k) →
  kw !! "max_volume" = Some (PyFloat v) →
  ∃ calls,
    (refine fuel mesh_info r0 min_points max_edge_length kw points triangles
       max_length tr).2 = tr ++ calls ∧
    Forall (forwards kw0 mesh_info) calls ∧
    bounds_follow r0 max_edge_length v calls.
Proof.
  revert kw v points triangles max_length tr.
  induction fuel as [|fuel IH]; intros kw v points triangles max_length tr Hkw Hv;
    rewrite refine_unfold;
    destruct (needs_refinement _ _ _ _);
    try (exists []; by rewrite app_nil_r).
  unfold ebind, build, elift. simpl.
  assert (forwards kw0 mesh_info (mesh_info, kw)) as Hfwd by done.
  assert (area_bound (mesh_info, kw) = Some v) as Hbound.
  { unfold area_bound. simpl. by rewrite Hv. }
  destruct (triangle_build mesh_info kw) as [mesh|] eqn:Hbuild;
    [| exists [(mesh_info, kw)]; by repeat constructor].
  destruct (max_edge _ (mesh_elements mesh)) as [m| |] eqn:Hm;
    try (exists [(mesh_info, kw)]; by repeat constructor).
  destruct (scale_max_volume kw _) as [kw'| |] eqn:Hscale;
    try (exists [(mesh_info, kw)]; by repeat constructor).
  apply scale_max_volume_Ok in Hscale as (v' & Hv' & ->).
  assert (v' = v) as -> by congruence.
  edestruct (IH (<["max_volume" := PyFloat (fmul v (shrink_factor max_edge_length m))]> kw))
    as (calls & Hcalls & Hall & Hfollow).
  { intros k Hk. rewrite lookup_insert_ne by done. by apply Hkw. }
  { apply lookup_insert_eq. }
  exists ((mesh_info, kw) :: calls). split_and!.
  - rewrite Hcalls. by rewrite <- app_assoc.
  - by constructor.
  - simpl. split; [done |]. destruct calls as [|c calls]; [done |].
    exists m. split; [| done]. unfold measured. simpl. by rewrite Hbuild.
Qed.

(** The calls of one run of [generate_mesh]: none when the setup raises;
    otherwise the first build with the caller's options, followed by the
    calls of the refinement loop. *)
Lemma generate_mesh_calls fuel poly_coords hole_coords (min_points : option Z)
    (max_edge_length : option F) (convex_hull : bool) boundary kw :
  match mesh_setup poly_coords hole_coords convex_hull boundary with
  | Ok su =>
      ∃ calls,
        (generate_mesh fuel poly_coords hole_coords min_points max_edge_length
           convex_hull boundary kw []).2 = (su_info su, kw) :: calls ∧
        Forall (forwards kw (su_info su)) calls ∧
        bounds_follow (su_r0 su) (edge_target max_edge_length)
          (fdiv (fmul (su_dx su) (su_dy su)) (flit 100 1)) calls
  | _ =>
      (generate_mesh fuel poly_coords hole_coords min_points max_edge_length
         convex_hull boundary kw []).2 = []
  end.
Proof.
  unfold generate_mesh, ebind at 1, elift at 1.
  destruct (mesh_setup _ _ _ _) as [su| |]; [| done..].
  unfold ebind at 1, build. simpl.
  destruct (triangle_build (su_info su) kw) as [mesh|]; [| by exists []].
  destruct (bool_decide (min_points = None) && no_edge_target max_edge_length);
    [by exists [] |].
  unfold ebind at 1, elift.
  destruct (max_edge _ (mesh_elements mesh)) as [m| |]; try by exists [].
  edestruct (refine_calls fuel (su_info su) (su_r0 su) (default 0%Z min_points)
               (edge_target max_edge_length) kw) as (calls & Hcalls & Hall & Hfollow);
    [| apply lookup_insert_eq |].
  { intros k Hk. by rewrite lookup_insert_ne. }
  exists calls. split_and!; [| done..]. unfold edge_target in Hcalls.
  by rewrite Hcalls.
Qed.

(** C7 (amended): the first engine invocation receives the caller's options
    unchanged, and every invocation receives every caller option other than
    [max_volume] unchanged; the refinement loop sets [max_volume] itself. *)
Theorem engine_options_forwarded fuel poly_coords hole_coords
    (min_points : option Z) (max_edge_length : option F) (convex_hull : bool)
    boundary kw :
  let calls :=
    (generate_mesh fuel poly_coords hole_coords min_points max_edge_length
       convex_hull boundary kw []).2 in
  (∀ c, head calls = Some c → c.2 = kw) ∧
  Forall (λ c, ∀ k, k ≠ "max_volume" → c.2 !! k = kw !! k) calls.
Proof.
  pose proof (generate_mesh_calls fuel poly_coords hole_coords min_points
                max_edge_length convex_hull boundary kw) as Hcalls.
  destruct (mesh_setup _ _ _ _) as [su| |]; simpl;
    [| rewrite Hcalls; by split..].
  destruct Hcalls as (calls & -> & Hall & _). split.
  - by intros c [= <-].
  - constructor; [done |]. eapply Forall_impl; [done |]. by intros c [_ Hc].
Qed.

Lemma refine_Ok fuel mesh_info r0 min_points max_edge_length kw points triangles
    max_length tr points' triangles' tr' :
  max_edge points triangles = Ok max_length →
  refine fuel mesh_info r0 min_points max_edge_length kw points triangles
    max_length tr = (Ok (points', triangles'), tr') →
  ∃ m, max_edge points' triangles' = Ok m ∧
       needs_refinement min_points max_edge_length points' m = false.
Proof.
  revert kw points triangles max_length tr.
  induction fuel as [|fuel IH]; intros kw points triangles max_length tr Hmax;
    rewrite refine_unfold;
    destruct (needs_refinement _ _ _ _) eqn:Hneeds;
    unfold eret, elift;
    try (intros [= <- <- <-]; by eauto).
  unfold ebind, build. simpl.
  destruct (triangle_build mesh_info kw) as [mesh|]; [| done].
  destruct (max_edge _ (mesh_elements mesh)) as [m| |] eqn:Hm; try done.
  destruct (scale_max_volume kw _) as [kw'| |]; try done.
  by apply IH.
Qed.

(** C4: when [generate_mesh] is called with a positive maximum edge length
    [L] and a minimum vertex count and returns, the mesh it returns meets
    both targets: its largest edge length [m] does not exceed [L] (the
    loop's test [m > L] is false, which for numbers is [m <= L]) and it has
    at least [min_points] vertices. *)
Theorem refinement_exit_meets_targets fuel poly_coords hole_coords
    (min_points : Z) (L : F) (convex_hull : bool) boundary kw
    (points : list (point F)) (triangles : list triangle) calls :
  fleb L (flit 0 1) = false →
  generate_mesh fuel poly_coords hole_coords (Some min_points) (Some L)
    convex_hull boundary kw [] = (Ok (points, triangles), calls) →
  ∃ m, max_edge points triangles = Ok m ∧
       fltb L m = false ∧
       (fleb L L = true → fleb m m = true → fleb m L = true) ∧
       (min_points ≤ Z.of_nat (length points))%Z.
Proof.
  intros Hpos. unfold generate_mesh, ebind at 1, elift at 1.
  destruct (mesh_setup _ _ _ _) as [su| |]; [| done..].
  unfold ebind at 1, build. simpl.
  destruct (triangle_build (su_info su) kw) as [mesh|]; [| done].
  rewrite Hpos. simpl. unfold ebind at 1, elift.
  destruct (max_edge _ (mesh_elements mesh)) as [m0| |] eqn:Hm0; try done.
  intros (m & Hm & Hexit)%refine_Ok; [| done].
  exists m. unfold needs_refinement in Hexit.
  apply orb_false_iff in Hexit as [Hcount Hlen].
  split_and!; [done.. | | by apply Z.ltb_ge].
  intros HL Hmm. by apply fleb_of_not_fltb.
Qed.

Lemma shrink_factor_target (max_edge_length : option F) (m : F) :
  shrink_factor (edge_target max_edge_length) m =
  match max_edge_length with
  | Some L =>
      if fleb L (flit 0 1) then flit 98 100
      else if fisfinite L then py_min (flit 98 100) (fsqrt (fdiv L m))
      else flit 98 100
  | None => flit 98 100
  end.
Proof.
  unfold shrink_factor, edge_target, no_edge_target.
  destruct max_edge_length as [L|]; simpl; [| by rewrite finf_not_finite].
  destruct (fleb L (flit 0 1)); [by rewrite finf_not_finite | done].
Qed.

Lemma bounds_follow_lookup r0 max_edge_length v calls i c c' :
  bounds_follow r0 max_edge_length v calls →
  calls !! i = Some c → calls !! S i = Some c' →
  ∃ v' m, area_bound c = Some v' ∧ measured r0 c = Ok m ∧
          area_bound c' = Some (fmul v' (shrink_factor max_edge_length m)).
Proof.
  revert v i. induction calls as [|c0 calls IH]; intros v i Hfollow Hc Hc';
    [done |].
  destruct Hfollow as [Hv Hrest]. destruct calls as [|c1 calls]; [done |].
  destruct Hrest as (m & Hm & Hrest). destruct i as [|i]; simpl in *.
  - simplify_eq. exists v, m. split_and!; [done.. |]. by destruct Hrest.
  - by eapply IH.
Qed.

(** The steps of a setup that succeeds. *)
Lemma mesh_setup_Ok poly_coords hole_coords (convex_hull : bool) boundary su :
  mesh_setup poly_coords hole_coords convex_hull boundary = Ok su →
  ∃ poly holes xmin ymin indices facets indices',
    let coords := poly ++ concat holes in
    let shifted := (λ c, pt_sub c (su_r0 su)) <$> coords in
    ensure_unique poly_coords = Ok poly ∧
    omapM ensure_unique hole_coords = Ok holes ∧
    np_min (fst <$> coords) = Ok xmin ∧
    np_ptp (fst <$> coords) = Ok (su_dx su) ∧
    np_min (snd <$> coords) = Ok ymin ∧
    np_ptp (snd <$> coords) = Ok (su_dy su) ∧
    su_r0 su = (fadd xmin (fdiv (su_dx su) (flit 2 1)),
                fadd ymin (fdiv (su_dy su) (flit 2 1))) ∧
    mi_points (su_info su) = shifted ∧
    (if convex_hull then
       boundary = None ∧ indices = np_arange 0 (length poly) ∧
       convex_hull_simplices shifted = Some facets
     else
       match boundary with
       | Some b =>
           boundary_indices shifted b (su_r0 su) (np_arange 0 (length poly)) =
             Ok indices
       | None => indices = np_arange 0 (length poly)
       end ∧ facets = cycle_facets indices) ∧
    hole_facets_loop indices facets holes = Ok (indices', mi_facets (su_info su)) ∧
    omapM (λ hole, let* c := or_raise ShapelyError (polygon_centroid hole) in
                   Ok (pt_sub c (su_r0 su))) holes = Ok (mi_holes (su_info su)).
Proof.
  unfold mesh_setup. intros Hsu.
  apply obind_Ok in Hsu as (poly & Hpoly & Hsu).
  apply obind_Ok in Hsu as (holes & Hholes & Hsu).
  apply obind_Ok in Hsu as (xmin & Hxmin & Hsu).
  apply obind_Ok in Hsu as (dx & Hdx & Hsu).
  apply obind_Ok in Hsu as (ymin & Hymin & Hsu).
  apply obind_Ok in Hsu as (dy & Hdy & Hsu).
  apply obind_Ok in Hsu as ([indices facets] & Houter & Hsu).
  apply obind_Ok in Hsu as ([indices' facets'] & Hloop & Hsu).
  apply obind_Ok in Hsu as (markers & Hmarkers & [= <-]).
  exists poly, holes, xmin, ymin, indices, facets, indices'. simpl.
  split_and!; try done.
  destruct convex_hull.
  - destruct boundary as [b|]; [done |].
    apply obind_Ok in Houter as (hull & Hhull%or_raise_Ok & [= <- <-]). done.
  - apply obind_Ok in Houter as (kept & Hkept & [= <- <-]).
    destruct boundary as [b|]; [done |]. by injection Hkept as <-.
Qed.

Lemma mesh_setup_bounding_box poly_coords hole_coords (convex_hull : bool)
    boundary su :
  mesh_setup poly_coords hole_coords convex_hull boundary = Ok su →
  ∃ poly holes,
    ensure_unique poly_coords = Ok poly ∧
    omapM ensure_unique hole_coords = Ok holes ∧
    np_ptp (fst <$> poly ++ concat holes) = Ok (su_dx su) ∧
    np_ptp (snd <$> poly ++ concat holes) = Ok (su_dy su).
Proof.
  intros (poly & holes & ? & ? & ? & ? & ? & Hsu)%mesh_setup_Ok.
  exists poly, holes. simpl in Hsu. tauto.
Qed.

(** C5: the area bound of the refinement loop.  [calls] lists the engine
    invocations of one run: call 0 is the first build, calls 1, 2, ... are
    the iterations of the loop.  The first iteration uses 1/100 of the
    bounding-box area [dx * dy] of the combined deduplicated coordinates, and
    each later iteration uses the bound of the iteration before it times
    [min(0.98, sqrt(target / measured))] when a finite positive target is
    set, and times 0.98 otherwise. *)
Theorem area_bound_schedule fuel poly_coords hole_coords (min_points : option Z)
    (max_edge_length : option F) (convex_hull : bool) boundary kw su :
  mesh_setup poly_coords hole_coords convex_hull boundary = Ok su →
  let calls :=
    (generate_mesh fuel poly_coords hole_coords min_points max_edge_length
       convex_hull boundary kw []).2 in
  let factor (m : F) :=
    match max_edge_length with
    | Some L =>
        if fleb L (flit 0 1) then flit 98 100
        else if fisfinite L then py_min (flit 98 100) (fsqrt (fdiv L m))
        else flit 98 100
    | None => flit 98 100
    end in
  (∃ poly holes,
     ensure_unique poly_coords = Ok poly ∧
     omapM ensure_unique hole_coords = Ok holes ∧
     np_ptp (fst <$> poly ++ concat holes) = Ok (su_dx su) ∧
     np_ptp (snd <$> poly ++ concat holes) = Ok (su_dy su)) ∧
  (∀ c, calls !! 1 = Some c →
        area_bound c = Some (fdiv (fmul (su_dx su) (su_dy su)) (flit 100 1))) ∧
  (∀ i c c', 1 ≤ i → calls !! i = Some c → calls !! S i = Some c' →
     ∃ v m, area_bound c = Some v ∧ measured (su_r0 su) c = Ok m ∧
            area_bound c' = Some (fmul v (factor m))).
Proof.
  intros Hsu calls factor. subst calls.
  pose proof (generate_mesh_calls fuel poly_coords hole_coords min_points
                max_edge_length convex_hull boundary kw) as Hcalls.
  rewrite Hsu in Hcalls. destruct Hcalls as (calls & -> & _ & Hfollow).
  split_and!.
  - by eapply mesh_setup_bounding_box.
  - intros c Hc. simpl in Hc. destruct calls as [|c0 calls]; simplify_eq/=.
    by destruct Hfollow.
  - intros [|i] c c' Hi Hc Hc'; [lia |]. simpl in Hc, Hc'.
    destruct (bounds_follow_lookup _ _ _ _ _ _ _ Hfollow Hc Hc')
      as (v & m & Hv & Hm & Hv').
    exists v, m. split_and!; [done.. |].
    by rewrite Hv', shrink_factor_target.
Qed.

(** *** Facets *)

(** What [x in a] tests: some row of [a] is equal to [x] in its first or in
    its second component. *)
Lemma np_contains_true (a : list (point F)) (x : point F) :
  np_contains a x = true ↔
  ∃ b, b ∈ a ∧ (feqb b.1 x.1 = true ∨ feqb b.2 x.2 = true).
Proof.
  unfold np_contains. induction a as [|b a IH]; simpl.
  - split; [done | by intros (b & ?%elem_of_nil & _)].
  - rewrite orb_true_iff, IH, orb_true_iff. split.
    + intros [Hb | (b' & Hb' & Hmatch)]; [exists b | exists b'];
        (split; [| done]); [left | by right].
    + intros (b' & [-> | Hb']%elem_of_cons & Hmatch); [by left |].
      right. by exists b'.
Qed.

Lemma boundary_indices_Ok coords (b : list (point F)) r0 indices kept :
  boundary_indices coords b r0 indices = Ok kept →
  sublist kept indices ∧
  ∀ i, i ∈ kept ↔ i ∈ indices ∧ partial_match coords b r0 i.
Proof.
  revert kept. induction indices as [|i indices IH]; intros kept; simpl.
  - intros [= <-]. split; [done |]. intros i. rewrite elem_of_nil. tauto.
  - intros (c & Hc%or_raise_Ok & Hkept)%obind_Ok.
    apply obind_Ok in Hkept as (shifted & Hshifted & Hkept).
    apply obind_Ok in Hkept as (rest & Hrest & [= <-]).
    destruct (IH rest Hrest) as [Hsub Hmem].
    assert (shifted = (λ q, pt_sub q r0) <$> b) as ->.
    { destruct b; [done | by injection Hshifted as <-]. }
    assert (np_contains ((λ q, pt_sub q r0) <$> b) c = true ↔
            partial_match coords b r0 i) as Hmatch.
    { rewrite np_contains_true. unfold partial_match. split.
      - intros (q' & (q & -> & Hq)%list_elem_of_fmap & Hq'). by exists c, q.
      - intros (c' & q & Hc' & Hq & Hmatch).
        assert (c' = c) as -> by congruence.
        exists (pt_sub q r0). split; [| done].
        apply list_elem_of_fmap. by exists q. }
    destruct (np_contains _ c) eqn:Hin.
    + split; [by constructor |]. intros j. rewrite !elem_of_cons, Hmem.
      split; [intros [-> | [? ?]] | intros [[-> | ?] ?]]; tauto.
    + split; [by constructor |]. intros j. rewrite elem_of_cons, Hmem.
      split; [tauto |]. intros [[-> | ?] Hj]; [| done].
      apply Hmatch in Hj. done.
Qed.

Lemma last_snoc_seq (indices : list nat) (final n : nat) :
  last indices = Some final →
  last (indices ++ seq (final + 1) n) = Some (final + n).
Proof.
  intros Hlast. destruct n as [|n].
  - simpl. by rewrite app_nil_r, Nat.add_0_r.
  - rewrite seq_S, app_assoc, last_snoc. f_equal. lia.
Qed.

(** The hole loop numbers the holes from the last outer index on. *)
Lemma hole_facets_loop_Ok indices facets (holes : list (list (point F))) final :
  last indices = Some final →
  hole_facets_loop indices facets holes =
    Ok (indices ++ seq (final + 1) (length (concat holes)),
        facets ++ hole_cycles (final + 1) holes).
Proof.
  revert indices facets final.
  induction holes as [|hole holes IH]; intros indices facets final Hlast; simpl.
  - by rewrite !app_nil_r.
  - rewrite Hlast. simpl. unfold np_arange.
    rewrite (IH _ _ (final + length hole)) by by apply last_snoc_seq.
    rewrite length_app, seq_app, !app_assoc.
    by replace (final + length hole + 1) with (final + 1 + length hole) by lia.
Qed.

Lemma last_seq (n : nat) : n ≠ 0 → last (seq 0 n) = Some (n - 1).
Proof.
  destruct n as [|n]; [done |]. intros _.
  rewrite seq_S, last_snoc. f_equal. lia.
Qed.

(** Without a boundary subset every outer-ring index forms facets, and the
    facets of each hole cycle through exactly the positions its points have
    in the combined array: the holes start at [len(poly_coords)]. *)
Lemma mesh_setup_hole_facets poly_coords hole_coords su :
  mesh_setup poly_coords hole_coords false None = Ok su →
  ∃ poly holes,
    ensure_unique poly_coords = Ok poly ∧
    omapM ensure_unique hole_coords = Ok holes ∧
    mi_points (su_info su) =
      (λ c, pt_sub c (su_r0 su)) <$> poly ++ concat holes ∧
    (holes ≠ [] →
     mi_facets (su_info su) =
       cycle_facets (seq 0 (length poly)) ++ hole_cycles (length poly) holes) ∧
    Forall2 (λ hole marker,
               ∃ c, polygon_centroid hole = Some c ∧
                    marker = pt_sub c (su_r0 su))
      holes (mi_holes (su_info su)).
Proof.
  intros (poly & holes & xmin & ymin & indices & facets & indices' &
          Hpoly & Hholes & _ & _ & _ & _ & _ & Hpoints & [-> ->] & Hloop &
          Hmarkers)%mesh_setup_Ok.
  exists poly, holes. split_and!; [done.. | |].
  - intros Hsome. destruct holes as [|hole holes]; [done |].
    destruct (decide (length poly = 0)) as [Hzero | Hpos].
    { rewrite Hzero in Hloop. done. }
    unfold np_arange in Hloop.
    rewrite (hole_facets_loop_Ok _ _ _ (length poly - 1)) in Hloop
      by by apply last_seq.
    injection Hloop as _ <-.
    by replace (length poly - 1 + 1) with (length poly) by lia.
  - apply omapM_Ok in Hmarkers. eapply Forall2_impl; [done |].
    intros hole marker (c & Hc%or_raise_Ok & [= <-])%obind_Ok. by exists c.
Qed.

(** X20: with a boundary subset the kept indices are those with a partial
    match, and the holes are numbered from the last kept index on. *)
Lemma mesh_setup_boundary_facets poly_coords hole_coords (b : list (point F)) su :
  mesh_setup poly_coords hole_coords false (Some b) = Ok su →
  ∃ poly holes kept,
    ensure_unique poly_coords = Ok poly ∧
    omapM ensure_unique hole_coords = Ok holes ∧
    sublist kept (seq 0 (length poly)) ∧
    (∀ i, i ∈ kept ↔
          i < length poly ∧ partial_match (mi_points (su_info su)) b (su_r0 su) i) ∧
    mi_facets (su_info su) =
      cycle_facets kept ++
      match last kept with
      | Some final => hole_cycles (final + 1) holes
      | None => []
      end.
Proof.
  intros (poly & holes & xmin & ymin & indices & facets & indices' &
          Hpoly & Hholes & _ & _ & _ & _ & _ & Hpoints & [Hkept ->] & Hloop &
          _)%mesh_setup_Ok.
  rewrite <- Hpoints in Hkept.
  apply boundary_indices_Ok in Hkept as [Hsub Hmem].
  exists poly, holes, indices. split_and!; [done.. | |].
  - intros i. rewrite Hmem. unfold np_arange. rewrite elem_of_seq.
    split; intros [? ?]; (split; [lia | done]).
  - destruct (last indices) as [final|] eqn:Hlast.
    + rewrite (hole_facets_loop_Ok _ _ _ final) in Hloop by done.
      by injection Hloop as _ <-.
    + destruct holes as [|hole holes]; simpl in Hloop.
      * injection Hloop as _ <-. by rewrite app_nil_r.
      * by rewrite Hlast in Hloop.
Qed.

End MeshFacts.

(** ** optimize_mesh *)

(** [optimize_mesh] hands its arguments to optimesh and returns what optimesh
    returns: the triangle array of the result is the optimizer's. *)
Lemma optimize_mesh_delegates {F : Type} `{!Scalar F, !MeshSmoother F}
    (points : list (point F)) (triangles : list triangle) (steps : Z)
    (method : string) (tolerance : F) (verbose : bool)
    (kw : gmap string (pyval F)) :
  optimize_mesh points triangles steps method tolerance verbose kw =
  or_raise OptimeshError
    (optimize_points_cells points triangles method tolerance steps verbose kw).
Proof.
  unfold optimize_mesh.
  by destruct (optimize_points_cells _ _ _ _ _ _ _) as [[points' triangles']|].
Qed.

(** ** oriented_boundary *)


Lemma omapM_Raise {A B : Type} (f : A → outcome B) (l : list A) (e : exn) (x : A) :
  (∀ y, y ∈ l → (∃ b, f y = Ok b) ∨ f y = Raise e) →
  x ∈ l → f x = Raise e →
  omapM f l = Raise e.
Proof.
  induction l as [|y l IH]; intros Hall Hx Hfx; [by apply elem_of_nil in Hx |].
  simpl. apply elem_of_cons in Hx as [<- | Hx]; [by rewrite Hfx |].
  destruct (Hall y) as [[b Hb] | Hb]; [left | | by rewrite Hb].
  rewrite Hb. simpl. rewrite IH; [done | | done..].
  intros z Hz. apply Hall. by right.
Qed.

Section BoundaryFacts.
Context {F : Type} `{!Scalar F, !Geometry F}.
Implicit Types (points ring : list (point F)) (xy : point F).

Lemma lookup_indices_Ok points ring indices :
  lookup_indices points ring = Ok indices ↔
  Forall2 (λ xy i, index_of pt_eqb xy points = Some i) ring indices.
Proof.
  unfold lookup_indices. rewrite omapM_Ok.
  split; intros Hall; eapply Forall2_impl; try apply Hall;
    intros xy i; by rewrite or_raise_Ok.
Qed.



Lemma lookup_removelast {A : Type} (l : list A) (k : nat) (x : A) :
  removelast l !! k = Some x ↔ l !! k = Some x ∧ S k < length l.
Proof.
  rewrite removelast_firstn_len, lookup_take_Some.
  split; intros [Hk Hlt]; (split; [done |]); [lia |].
  apply lookup_lt_Some in Hk. lia.
Qed.


(** C10 (amended): when [oriented_boundary] returns, every returned loop has
    one index per vertex of its polygon's exterior ring, the closing vertex
    dropped, and every index is the smallest position of the vertex array
    whose row is equal, by Python's [==] on both components, to the
    coordinate of that vertex: it is below [len(points)], and with equal
    rows in the vertex array it is the first of them. *)
Theorem returned_indices_first_match points (boundary_edges : list (Z * Z))
    (loops : list (list nat)) :
  oriented_boundary points boundary_edges = Ok loops →
  ∃ edges polygons,
    omapM (edge_segment points) boundary_edges = Ok edges ∧
    polygonize edges = Some polygons ∧
    Forall2 (λ p loop,
      length loop = length (exterior_coords (orient p)) - 1 ∧
      ∀ k i, loop !! k = Some i →
        i < length points ∧
        ∃ xy q, exterior_coords (orient p) !! k = Some xy ∧
                points !! i = Some q ∧ pt_eqb q xy = true ∧
                ∀ j q', j < i → points !! j = Some q' → pt_eqb q' xy = false)
      polygons loops.
Proof.
  unfold oriented_boundary.
  intros (edges & Hedges & Hloops)%obind_Ok.
  apply obind_Ok in Hloops as (polygons & Hpolygons%or_raise_Ok & Hloops).
  exists edges, polygons. split_and!; [done.. |].
  apply omapM_Ok in Hloops. eapply Forall2_impl; [done |].
  intros p loop (indices & Hindices & [= <-])%obind_Ok.
  apply lookup_indices_Ok in Hindices.
  split.
  - rewrite removelast_firstn_len, length_take.
    apply Forall2_length in Hindices. lia.
  - intros k i [Hk _]%lookup_removelast.
    destruct (Forall2_lookup_r _ _ _ _ _ Hindices Hk) as (xy & Hxy & Hi).
    apply index_of_Some in Hi as [(q & Hq & Hqxy) Hfirst].
    split; [by eapply lookup_lt_Some | by exists xy, q].
Qed.

End BoundaryFacts.

(** * Further properties of the module *)

(** ** ensure_unique, applied twice and to closed rings *)

Section EnsureUniqueMore.
Context {F : Type} `{!Scalar F}.
Implicit Types (coords extra out : list (point F)).

(** X1: deduplicating a deduplicated sequence changes nothing. *)
Theorem ensure_unique_idempotent coords :
  obind (ensure_unique coords) ensure_unique = ensure_unique coords.
Proof.
  destruct (ensure_unique_Ok coords) as (out & Hout & _). rewrite Hout. simpl.
  destruct (ensure_unique_Ok out) as (out' & Hout' & _). rewrite Hout'.
  f_equal. eapply ensure_unique_fixed; [done |].
  intros i j p q. by apply (ensure_unique_distinct coords).
Qed.

Lemma filter_seq_ext (P Q : nat → Prop) `{∀ k, Decision (P k)}
    `{∀ k, Decision (Q k)} (j n : nat) :
  (∀ k, j ≤ k < j + n → (P k ↔ Q k)) →
  filter P (seq j n) = filter Q (seq j n).
Proof.
  revert j. induction n as [|n IH]; intros j Hext; [done |]. simpl.
  rewrite !filter_cons, IH by (intros k Hk; apply Hext; lia).
  destruct (decide (P j)) as [HP | HP], (decide (Q j)) as [HQ | HQ];
    try done; exfalso; apply (Hext j) in HP || apply (Hext j) in HQ; done || lia.
Qed.

Lemma filter_seq_none (P : nat → Prop) `{∀ k, Decision (P k)} (j n : nat) :
  (∀ k, j ≤ k < j + n → ¬ P k) → filter P (seq j n) = [].
Proof.
  revert j. induction n as [|n IH]; intros j Hnone; [done |]. simpl.
  rewrite filter_cons_False by (apply Hnone; lia).
  apply IH. intros k Hk. apply Hnone. lia.
Qed.

Lemma first_positions_app coords extra :
  (∀ p, p ∈ extra → ∃ q, q ∈ coords ∧ pt_eqb q p = true) →
  first_positions (coords ++ extra) = first_positions coords.
Proof.
  intros Hsub. unfold first_positions.
  rewrite length_app, seq_app, filter_app. simpl.
  rewrite (filter_seq_none _ (length coords) (length extra)), app_nil_r.
  - apply filter_seq_ext. intros k [_ Hk]. simpl in Hk.
    rewrite !first_at_spec. split; intros (p & Hp & Hfirst); exists p.
    + rewrite lookup_app_l in Hp by lia. split; [done |].
      intros j q Hj Hq. apply (Hfirst j q Hj).
      by rewrite lookup_app_l by lia.
    + rewrite lookup_app_l by lia. split; [done |].
      intros j q Hj. rewrite lookup_app_l by lia. by apply Hfirst.
  - intros k Hk (p & Hp & Hfirst)%first_at_spec.
    rewrite lookup_app_r in Hp by lia.
    apply list_elem_of_lookup_2, Hsub in Hp as (q & Hq & Hqp).
    apply list_elem_of_lookup_1 in Hq as [i Hi].
    rewrite (Hfirst i q) in Hqp; [done | |].
    + apply lookup_lt_Some in Hi. lia.
    + by rewrite lookup_app_l by by eapply lookup_lt_Some.
Qed.

(** X2: rows appended to a sequence that already holds a row equal to each
    of them leave the result unchanged; a ring given closed, its first point
    repeated at the end, deduplicates to the open ring. *)
Theorem ensure_unique_ignores_repeats coords extra :
  (∀ p, p ∈ extra → ∃ q, q ∈ coords ∧ pt_eqb q p = true) →
  ensure_unique (coords ++ extra) = ensure_unique coords.
Proof.
  intros Hsub.
  destruct (ensure_unique_Ok coords) as (out & Hout & Hpos).
  destruct (ensure_unique_Ok (coords ++ extra)) as (out' & Hout' & Hpos').
  rewrite Hout, Hout'. f_equal.
  rewrite first_positions_app in Hpos' by done.
  apply list_eq. intros k.
  destruct (first_positions coords !! k) as [i|] eqn:Hi.
  - destruct (Forall2_lookup_l _ _ _ _ _ Hpos Hi) as (p & Hp & Hip).
    destruct (Forall2_lookup_l _ _ _ _ _ Hpos' Hi) as (p' & Hp' & Hip').
    rewrite lookup_app_l in Hip' by by eapply lookup_lt_Some. congruence.
  - apply Forall2_length in Hpos, Hpos'.
    apply lookup_ge_None in Hi. rewrite !(proj2 (lookup_ge_None _ _)); [done | lia..].
Qed.

End EnsureUniqueMore.

(** ** generate_mesh: duplicates, the number of builds, the last build *)

Section MeshMore.
Context {F : Type} `{!Scalar F, !Triangulator F, !Geometry F, !EdgeLengths F}.
Implicit Types (poly_coords poly : list (point F)).
Implicit Types (hole_coords holes : list (list (point F))).
Implicit Types (kw : gmap string (pyval F)) (tr calls : list (EngineCall F)).
Implicit Types (boundary : option (list (point F))).

Lemma ensure_unique_again (coords out : list (point F)) :
  ensure_unique coords = Ok out → ensure_unique out = Ok out.
Proof.
  intros Hout. destruct (ensure_unique_Ok out) as (out' & Hout' & _).
  rewrite Hout'. f_equal. eapply ensure_unique_fixed; [done |].
  intros i j p q. by apply (ensure_unique_distinct coords).
Qed.

Lemma omapM_ensure_unique_again hole_coords holes :
  omapM ensure_unique hole_coords = Ok holes →
  omapM ensure_unique holes = Ok holes.
Proof.
  intros Hall%omapM_Ok. apply omapM_Ok.
  induction Hall as [|hole hole' rest holes Hhole _ IH]; constructor; [| done].
  by eapply ensure_unique_again.
Qed.

(** X3: a run on rings with repeated points is the run on the deduplicated
    rings: same outcome, same engine invocations. *)
Theorem generate_mesh_ignores_duplicates (fuel : nat) poly_coords hole_coords
    (min_points : option Z) (max_edge_length : option F) (convex_hull : bool)
    boundary kw poly holes tr :
  ensure_unique poly_coords = Ok poly →
  omapM ensure_unique hole_coords = Ok holes →
  generate_mesh fuel poly_coords hole_coords min_points max_edge_length
    convex_hull boundary kw tr =
  generate_mesh fuel poly holes min_points max_edge_length
    convex_hull boundary kw tr.
Proof.
  intros Hpoly Hholes.
  assert (mesh_setup poly_coords hole_coords convex_hull boundary =
          mesh_setup poly holes convex_hull boundary) as Hsetup.
  { unfold mesh_setup.
    by rewrite Hpoly, Hholes, (ensure_unique_again _ _ Hpoly),
      (omapM_ensure_unique_again _ _ Hholes). }
  unfold generate_mesh. by rewrite Hsetup.
Qed.

(** X4: without targets ([min_points] unset, [max_edge_length] unset or not
    positive) the engine is invoked exactly once, with the caller's options,
    and the run ends with what that invocation gave: its mesh moved back by
    [r0], or the engine's failure.  The iteration budget plays no part. *)
Theorem no_targets_single_build (fuel : nat) poly_coords hole_coords
    (max_edge_length : option F) (convex_hull : bool) boundary kw su :
  mesh_setup poly_coords hole_coords convex_hull boundary = Ok su →
  no_edge_target max_edge_length = true →
  generate_mesh fuel poly_coords hole_coords None max_edge_length
    convex_hull boundary kw [] =
  (built (su_r0 su) (su_info su, kw), [(su_info su, kw)]).
Proof.
  intros Hsu Hnone. unfold generate_mesh, ebind at 1, elift at 1.
  rewrite Hsu. unfold ebind, build, built. simpl.
  destruct (triangle_build (su_info su) kw) as [mesh|]; [| done].
  by rewrite Hnone.
Qed.

(** X5: when the first mesh already meets the targets, it is returned after
    that single invocation: the loop body never runs, for any budget. *)
Theorem targets_met_single_build (fuel : nat) poly_coords hole_coords
    (min_points : option Z) (max_edge_length : option F) (convex_hull : bool)
    boundary kw su (points : list (point F)) (triangles : list triangle)
    (max_length : F) :
  mesh_setup poly_coords hole_coords convex_hull boundary = Ok su →
  built (su_r0 su) (su_info su, kw) = Ok (points, triangles) →
  max_edge points triangles = Ok max_length →
  needs_refinement (default 0%Z min_points) (edge_target max_edge_length)
    points max_length = false →
  generate_mesh fuel poly_coords hole_coords min_points max_edge_length
    convex_hull boundary kw [] =
  (Ok (points, triangles), [(su_info su, kw)]).
Proof.
  intros Hsu Hbuilt Hmax Hmet. unfold generate_mesh, ebind at 1, elift at 1.
  rewrite Hsu. unfold ebind at 1, build. unfold built in Hbuilt. simpl in *.
  destruct (triangle_build (su_info su) kw) as [mesh|]; [| done].
  injection Hbuilt as <- <-.
  destruct (bool_decide (min_points = None) && no_edge_target max_edge_length);
    [done |].
  unfold ebind, elift. rewrite Hmax, refine_unfold.
  unfold edge_target in Hmet. by rewrite Hmet.
Qed.

(** X6: the facets, points and hole markers are set up once: every engine
    invocation of a run receives the same mesh description, and a run whose
    setup raises invokes the engine not at all. *)
Theorem mesh_info_built_once (fuel : nat) poly_coords hole_coords
    (min_points : option Z) (max_edge_length : option F) (convex_hull : bool)
    boundary kw :
  let calls :=
    (generate_mesh fuel poly_coords hole_coords min_points max_edge_length
       convex_hull boundary kw []).2 in
  match mesh_setup poly_coords hole_coords convex_hull boundary with
  | Ok su => calls ≠ [] ∧ Forall (λ c, c.1 = su_info su) calls
  | _ => calls = []
  end.
Proof.
  pose proof (generate_mesh_calls fuel poly_coords hole_coords min_points
                max_edge_length convex_hull boundary kw) as Hcalls.
  destruct (mesh_setup _ _ _ _) as [su| |]; simpl; [| done..].
  destruct Hcalls as (calls & -> & Hall & _). split; [done |].
  constructor; [done |]. eapply Forall_impl; [done |]. by intros c [Hc _].
Qed.

Lemma refine_last fuel (mesh_info : MeshInfo F) (r0 : point F) (min_points : Z)
    (max_edge_length : F) kw (points : list (point F))
    (triangles : list triangle) (max_length : F) tr :
  ∃ calls,
    let run := refine fuel mesh_info r0 min_points max_edge_length kw points
                 triangles max_length tr in
    run.2 = tr ++ calls ∧
    (∀ i c, calls !! i = Some c → triangle_build c.1 c.2 = None →
            run.1 = Raise EngineError ∧ length calls = S i) ∧
    (∀ mesh, run.1 = Ok mesh →
             match last calls with
             | Some c => built r0 c = Ok mesh
             | None => mesh = (points, triangles)
             end).
Proof.
  revert kw points triangles max_length tr.
  induction fuel as [|fuel IH]; intros kw points triangles max_length tr;
    rewrite refine_unfold;
    destruct (needs_refinement _ _ _ _);
    try (exists []; unfold eret, elift; simpl; rewrite app_nil_r;
         split_and!;
         [done | intros i c Hc; by rewrite lookup_nil in Hc
         | by intros mesh [= <-]]).
  unfold ebind, build, elift. simpl.
  destruct (triangle_build mesh_info kw) as [mesh|] eqn:Hbuild.
  2:{ exists [(mesh_info, kw)]. simpl. split_and!; [done | | done].
      intros [|i] c Hc _; [done |]. by destruct i. }
  assert (∀ (o : outcome (list (point F) * list triangle)),
            (∀ mesh', o ≠ Ok mesh') →
            (∀ i c, [(mesh_info, kw)] !! i = Some c →
                    triangle_build c.1 c.2 = None →
                    o = Raise EngineError ∧ length [(mesh_info, kw)] = S i) ∧
            (∀ mesh', o = Ok mesh' →
                      match last [(mesh_info, kw)] with
                      | Some c => built r0 c = Ok mesh'
                      | None => mesh' = (points, triangles)
                      end)) as Hstop.
  { intros o Ho. split.
    - intros [|[|i]] c [= <-]. simpl. congruence.
    - intros mesh' ->. by destruct (Ho mesh'). }
  destruct (max_edge _ (mesh_elements mesh)) as [m| |] eqn:Hm;
    try (exists [(mesh_info, kw)]; simpl; split; [done | by apply Hstop]).
  destruct (scale_max_volume kw _) as [kw'| |];
    try (exists [(mesh_info, kw)]; simpl; split; [done | by apply Hstop]).
  destruct (IH kw' ((λ p, pt_add p r0) <$> mesh_points mesh)
              (mesh_elements mesh) m (tr ++ [(mesh_info, kw)]))
    as (calls & Hcalls & Hfail & Hlast).
  simpl in Hcalls, Hfail, Hlast.
  exists ((mesh_info, kw) :: calls). simpl. split_and!.
  - rewrite Hcalls. by rewrite <- app_assoc.
  - intros [|i] c Hc Hnone; simpl in Hc.
    + injection Hc as <-. simpl in Hnone. congruence.
    + destruct (Hfail i c Hc Hnone) as [-> ->]. done.
  - intros mesh' Hmesh'. specialize (Hlast mesh' Hmesh').
    destruct calls as [|c calls].
    + simpl in *. subst mesh'. unfold built. simpl. by rewrite Hbuild.
    + rewrite last_cons_cons.
      destruct (last (c :: calls)) as [c'|] eqn:Hc'; [done |].
      by apply last_None in Hc'.
Qed.

Lemma generate_mesh_unfold (fuel : nat) poly_coords hole_coords
    (min_points : option Z) (max_edge_length : option F) (convex_hull : bool)
    boundary kw su :
  mesh_setup poly_coords hole_coords convex_hull boundary = Ok su →
  generate_mesh fuel poly_coords hole_coords min_points max_edge_length
    convex_hull boundary kw [] =
  match triangle_build (su_info su) kw with
  | None => (Raise EngineError, [(su_info su, kw)])
  | Some mesh =>
      let points := (λ p, pt_add p (su_r0 su)) <$> mesh_points mesh in
      if bool_decide (min_points = None) && no_edge_target max_edge_length
      then (Ok (points, mesh_elements mesh), [(su_info su, kw)])
      else
        match max_edge points (mesh_elements mesh) with
        | Ok m =>
            refine fuel (su_info su) (su_r0 su) (default 0%Z min_points)
              (edge_target max_edge_length)
              (<["max_volume" :=
                   PyFloat (fdiv (fmul (su_dx su) (su_dy su)) (flit 100 1))]> kw)
              points (mesh_elements mesh) m [(su_info su, kw)]
        | Raise e => (Raise e, [(su_info su, kw)])
        | OutOfFuel => (OutOfFuel, [(su_info su, kw)])
        end
  end.
Proof.
  intros Hsu. unfold generate_mesh, ebind at 1, elift at 1. rewrite Hsu.
  unfold ebind at 1, build. simpl.
  destruct (triangle_build (su_info su) kw) as [mesh|]; [| done].
  destruct (bool_decide (min_points = None) && no_edge_target max_edge_length);
    [done |].
  unfold ebind, elift. by destruct (max_edge _ (mesh_elements mesh)).
Qed.

Lemma generate_mesh_last (fuel : nat) poly_coords hole_coords
    (min_points : option Z) (max_edge_length : option F) (convex_hull : bool)
    boundary kw su :
  mesh_setup poly_coords hole_coords convex_hull boundary = Ok su →
  let run := generate_mesh fuel poly_coords hole_coords min_points
               max_edge_length convex_hull boundary kw [] in
  (∀ i c, run.2 !! i = Some c → triangle_build c.1 c.2 = None →
          run.1 = Raise EngineError ∧ length run.2 = S i) ∧
  (∀ mesh, run.1 = Ok mesh →
           ∃ c, last run.2 = Some c ∧ built (su_r0 su) c = Ok mesh).
Proof.
  intros Hsu. cbv zeta. rewrite (generate_mesh_unfold _ _ _ _ _ _ _ _ _ Hsu).
  assert (∀ mesh, triangle_build (su_info su) kw = Some mesh →
          ∀ (o : outcome (list (point F) * list triangle)),
            (∀ mesh', o = Ok mesh' →
                      mesh' = ((λ p, pt_add p (su_r0 su)) <$> mesh_points mesh,
                               mesh_elements mesh)) →
            (∀ i c, [(su_info su, kw)] !! i = Some c →
                    triangle_build c.1 c.2 = None →
                    o = Raise EngineError ∧ length [(su_info su, kw)] = S i) ∧
            (∀ mesh', o = Ok mesh' →
                      ∃ c, last [(su_info su, kw)] = Some c ∧
                           built (su_r0 su) c = Ok mesh')) as Hone.
  { intros mesh Hbuild o Ho. split.
    - intros [|[|i]] c [= <-]. simpl. congruence.
    - intros mesh' ->%Ho. exists (su_info su, kw). split; [done |].
      unfold built. simpl. by rewrite Hbuild. }
  destruct (triangle_build (su_info su) kw) as [mesh|] eqn:Hbuild.
  2:{ simpl. split; [| done]. intros [|i] c Hc _; [done | by destruct i]. }
  cbv zeta.
  destruct (bool_decide (min_points = None) && no_edge_target max_edge_length).
  { simpl. apply (Hone mesh eq_refl). by intros mesh' [= <-]. }
  destruct (max_edge _ (mesh_elements mesh)) as [m| |] eqn:Hm;
    [| simpl; by apply (Hone mesh eq_refl)..].
  match goal with
  | |- context [refine ?f ?mi ?r0 ?mp ?L ?k ?p ?t ?m ?tr] =>
      destruct (refine_last f mi r0 mp L k p t m tr)
        as (calls & Hcalls & Hfail & Hlast)
  end.
  simpl in Hcalls, Hfail, Hlast. rewrite Hcalls. simpl. split.
  - intros [|i] c Hc Hnone; simpl in Hc.
    + injection Hc as <-. simpl in Hnone. congruence.
    + destruct (Hfail i c Hc Hnone) as [-> ->]. done.
  - intros mesh' Hmesh'. specialize (Hlast mesh' Hmesh').
    destruct calls as [|c calls].
    + simpl in *. subst mesh'.
      eapply (Hone mesh eq_refl (Ok _)); [by intros mesh' [= <-] | done].
    + rewrite last_cons_cons.
      destruct (last (c :: calls)) as [c'|] eqn:Hc'; [by exists c' |].
      by apply last_None in Hc'.
Qed.

(** X7: a run that returns a mesh returns the mesh of its last engine
    invocation, vertices moved back by [r0] and triangles as the engine gave
    them. *)
Theorem returned_mesh_is_last_build (fuel : nat) poly_coords hole_coords
    (min_points : option Z) (max_edge_length : option F) (convex_hull : bool)
    boundary kw (points : list (point F)) (triangles : list triangle) calls :
  generate_mesh fuel poly_coords hole_coords min_points max_edge_length
    convex_hull boundary kw [] = (Ok (points, triangles), calls) →
  ∃ su c mesh,
    mesh_setup poly_coords hole_coords convex_hull boundary = Ok su ∧
    last calls = Some c ∧
    triangle_build c.1 c.2 = Some mesh ∧
    points = (λ p, pt_add p (su_r0 su)) <$> mesh_points mesh ∧
    triangles = mesh_elements mesh.
Proof.
  intros Hrun.
  destruct (mesh_setup poly_coords hole_coords convex_hull boundary)
    as [su| |] eqn:Hsu.
  2,3: unfold generate_mesh, ebind, elift in Hrun; by rewrite Hsu in Hrun.
  pose proof (generate_mesh_last fuel poly_coords hole_coords min_points
                max_edge_length convex_hull boundary kw su Hsu) as [_ Hlast].
  simpl in Hlast. rewrite Hrun in Hlast.
  destruct (Hlast _ eq_refl) as (c & Hc & Hbuilt). unfold built in Hbuilt.
  destruct (triangle_build c.1 c.2) as [mesh|] eqn:Hmesh; [| done].
  injection Hbuilt as <- <-. by exists su, c, mesh.
Qed.

(** X8: an engine failure is not retried: the invocation that fails is the
    last one of the run, and the run raises the engine's error. *)
Theorem engine_failure_ends_run (fuel : nat) poly_coords hole_coords
    (min_points : option Z) (max_edge_length : option F) (convex_hull : bool)
    boundary kw (i : nat) (c : EngineCall F) :
  let run := generate_mesh fuel poly_coords hole_coords min_points
               max_edge_length convex_hull boundary kw [] in
  run.2 !! i = Some c →
  triangle_build c.1 c.2 = None →
  run.1 = Raise EngineError ∧ length run.2 = S i.
Proof.
  intros run Hc Hnone. subst run.
  destruct (mesh_setup poly_coords hole_coords convex_hull boundary)
    as [su| |] eqn:Hsu.
  2,3: unfold generate_mesh, ebind, elift in Hc; by rewrite Hsu in Hc.
  by eapply (generate_mesh_last fuel poly_coords hole_coords min_points
               max_edge_length convex_hull boundary kw su Hsu).
Qed.

Lemma generate_mesh_refined (fuel : nat) poly_coords hole_coords
    (min_points : option Z) (max_edge_length : option F) (convex_hull : bool)
    boundary kw (points : list (point F)) (triangles : list triangle) calls :
  bool_decide (min_points = None) && no_edge_target max_edge_length = false →
  generate_mesh fuel poly_coords hole_coords min_points max_edge_length
    convex_hull boundary kw [] = (Ok (points, triangles), calls) →
  ∃ m, max_edge points triangles = Ok m ∧
       needs_refinement (default 0%Z min_points) (edge_target max_edge_length)
         points m = false.
Proof.
  intros Htargets Hrun.
  destruct (mesh_setup poly_coords hole_coords convex_hull boundary)
    as [su| |] eqn:Hsu.
  2,3: unfold generate_mesh, ebind, elift in Hrun; by rewrite Hsu in Hrun.
  rewrite (generate_mesh_unfold _ _ _ _ _ _ _ _ _ Hsu), Htargets in Hrun.
  destruct (triangle_build (su_info su) kw) as [mesh|]; [| done].
  cbv zeta in Hrun.
  destruct (max_edge _ (mesh_elements mesh)) as [m0| |] eqn:Hm0; try done.
  by eapply refine_Ok.
Qed.

(** X18: a vertex-count target alone is honoured too: with [min_points]
    given, whatever the edge target, a run that returns a mesh returns one
    with at least [min_points] vertices. *)
Theorem min_points_met (fuel : nat) poly_coords hole_coords (min_points : Z)
    (max_edge_length : option F) (convex_hull : bool) boundary kw
    (points : list (point F)) (triangles : list triangle) calls :
  generate_mesh fuel poly_coords hole_coords (Some min_points) max_edge_length
    convex_hull boundary kw [] = (Ok (points, triangles), calls) →
  (min_points ≤ Z.of_nat (length points))%Z.
Proof.
  intros (m & _ & Hexit)%generate_mesh_refined; [| done].
  unfold needs_refinement in Hexit.
  apply orb_false_iff in Hexit as [Hcount _]. by apply Z.ltb_ge.
Qed.

(** X19: an edge-length target alone is honoured too: with a positive
    [max_edge_length], whatever the vertex-count target, a run that returns
    a mesh returns one whose largest edge length does not exceed it. *)
Theorem edge_target_met (fuel : nat) poly_coords hole_coords
    (min_points : option Z) (L : F) (convex_hull : bool) boundary kw
    (points : list (point F)) (triangles : list triangle) calls :
  fleb L (flit 0 1) = false →
  generate_mesh fuel poly_coords hole_coords min_points (Some L)
    convex_hull boundary kw [] = (Ok (points, triangles), calls) →
  ∃ m, max_edge points triangles = Ok m ∧ fltb L m = false.
Proof.
  intros Hpos (m & Hm & Hexit)%generate_mesh_refined.
  - exists m. split; [done |]. unfold needs_refinement in Hexit.
    apply orb_false_iff in Hexit as [_ Hedge].
    unfold edge_target, no_edge_target in Hedge. by rewrite Hpos in Hedge.
  - simpl. rewrite Hpos. apply andb_false_r.
Qed.

End MeshMore.

(** ** The setup of generate_mesh: degenerate inputs and the shape of the facets *)

Section SetupMore.
Context {F : Type} `{!Scalar F, !Triangulator F, !Geometry F, !EdgeLengths F}.
Implicit Types (poly_coords poly : list (point F)).
Implicit Types (hole_coords holes : list (list (point F))).
Implicit Types (kw : gmap string (pyval F)).

Lemma omapM_length {A B : Type} (f : A → outcome B) (l : list A) (k : list B) :
  omapM f l = Ok k → length k = length l.
Proof. intros Hall%omapM_Ok. symmetry. by eapply Forall2_length. Qed.

Lemma boundary_indices_all (coords b : list (point F)) (r0 : point F)
    (indices : list nat) :
  (∀ i, i ∈ indices →
        ∃ c q, coords !! i = Some c ∧ q ∈ b ∧ pt_sub q r0 = c ∧
               (feqb c.1 c.1 = true ∨ feqb c.2 c.2 = true)) →
  boundary_indices coords b r0 indices = Ok indices.
Proof.
  induction indices as [|i indices IH]; intros Hall; simpl; [done |].
  destruct (Hall i) as (c & q & Hc & Hq & Hqc & Hnum); [left |].
  rewrite Hc. simpl.
  assert (boundary_minus b r0 = Ok ((λ q, pt_sub q r0) <$> b)) as ->.
  { destruct b; [by apply elem_of_nil in Hq | done]. }
  simpl. rewrite IH by (intros j Hj; apply Hall; by right). simpl.
  assert (np_contains ((λ q, pt_sub q r0) <$> b) c = true) as ->; [| done].
  apply np_contains_true. exists (pt_sub q r0). split; [| by rewrite Hqc].
  apply list_elem_of_fmap. by exists q.
Qed.

(** X9: naming every point of the outer ring in the boundary subset is the
    same as naming none, as long as every recentred point has a component
    that is a number: the run is the run with [boundary=None].  (A point
    whose recentred components are both NaN is equal to nothing and would be
    dropped by the filter.) *)
Theorem full_boundary_same_as_none (fuel : nat) poly_coords hole_coords
    (min_points : option Z) (max_edge_length : option F)
    (b : list (point F)) kw (tr : list (EngineCall F)) su :
  mesh_setup poly_coords hole_coords false None = Ok su →
  (∀ p, p ∈ poly_coords → p ∈ b) →
  Forall (λ c, feqb c.1 c.1 = true ∨ feqb c.2 c.2 = true)
    (mi_points (su_info su)) →
  generate_mesh fuel poly_coords hole_coords min_points max_edge_length
    false (Some b) kw tr =
  generate_mesh fuel poly_coords hole_coords min_points max_edge_length
    false None kw tr.
Proof.
  intros Hsu Hsub Hnum.
  assert (mesh_setup poly_coords hole_coords false (Some b) =
          mesh_setup poly_coords hole_coords false None) as Hsetup;
    [| unfold generate_mesh; by rewrite Hsetup].
  pose proof Hsu as
    (poly & holes & xmin & ymin & indices & facets & indices' &
     Hpoly & Hholes & Hxmin & Hdx & Hymin & Hdy & Hr0 & Hpoints & _)%mesh_setup_Ok.
  unfold mesh_setup. rewrite Hpoly, Hholes. simpl.
  rewrite Hxmin, Hdx, Hymin, Hdy. simpl. rewrite <- Hr0.
  rewrite boundary_indices_all; [done |].
  intros i [_ Hi]%elem_of_seq. simpl in Hi.
  apply lookup_lt_is_Some in Hi as [p Hp].
  assert (((λ c, pt_sub c (su_r0 su)) <$> poly ++ concat holes) !! i =
          Some (pt_sub p (su_r0 su))) as Hc.
  { rewrite list_lookup_fmap, lookup_app_l by by eapply lookup_lt_Some.
    by rewrite Hp. }
  exists (pt_sub p (su_r0 su)), p. split_and!; [done | | done |].
  - apply Hsub. apply (ensure_unique_sub _ _ p Hpoly).
    by eapply list_elem_of_lookup_2.
  - rewrite <- Hpoints in Hc. eapply Forall_lookup_1 in Hnum; [| done]. done.
Qed.

Lemma mesh_setup_coords poly_coords hole_coords (convex_hull : bool)
    (boundary : option (list (point F))) poly holes :
  ensure_unique poly_coords = Ok poly →
  omapM ensure_unique hole_coords = Ok holes →
  poly ++ concat holes ≠ [] →
  ∃ xmin dx ymin dy,
    np_min (fst <$> poly ++ concat holes) = Ok xmin ∧
    np_ptp (fst <$> poly ++ concat holes) = Ok dx ∧
    np_min (snd <$> poly ++ concat holes) = Ok ymin ∧
    np_ptp (snd <$> poly ++ concat holes) = Ok dy.
Proof.
  intros _ _ Hne.
  destruct (np_min_Ok (fst <$> poly ++ concat holes)) as [xmin ->];
    [by intros ?%fmap_nil_inv |].
  destruct (np_ptp_Ok (fst <$> poly ++ concat holes)) as [dx ->];
    [by intros ?%fmap_nil_inv |].
  destruct (np_min_Ok (snd <$> poly ++ concat holes)) as [ymin ->];
    [by intros ?%fmap_nil_inv |].
  destruct (np_ptp_Ok (snd <$> poly ++ concat holes)) as [dy ->];
    [by intros ?%fmap_nil_inv |].
  by exists xmin, dx, ymin, dy.
Qed.

(** X10: an empty boundary subset is refused, not read as "no boundary":
    with a non-empty outer ring and [convex_hull=False], [boundary - r0]
    cannot be broadcast and the call raises before the engine is invoked. *)
Theorem empty_boundary_raises (fuel : nat) poly_coords hole_coords
    (min_points : option Z) (max_edge_length : option F) kw :
  poly_coords ≠ [] →
  generate_mesh fuel poly_coords hole_coords min_points max_edge_length
    false (Some []) kw [] = (Raise BroadcastError, []).
Proof.
  intros Hne. unfold generate_mesh, ebind, elift.
  assert (mesh_setup poly_coords hole_coords false (Some []) =
          Raise BroadcastError) as ->; [| done].
  destruct (ensure_unique_Ok poly_coords) as (poly & Hpoly & _).
  destruct (omapM_ensure_unique_Ok hole_coords) as (holes & Hholes & _).
  assert (poly ≠ []) as Hpne.
  { intros Hnil. by apply (ensure_unique_nil _ _ Hpoly) in Hnil. }
  destruct (mesh_setup_coords poly_coords hole_coords false None poly holes)
    as (xmin & dx & ymin & dy & Hxmin & Hdx & Hymin & Hdy); [done.. | |].
  { intros [? _]%app_nil. done. }
  unfold mesh_setup. rewrite Hpoly, Hholes. simpl.
  rewrite Hxmin, Hdx, Hymin, Hdy. simpl.
  destruct poly as [|p poly]; [done |]. done.
Qed.

(** X11: an empty outer ring with a hole is refused: the hole loop asks for
    the last outer index, [indices[-1]], and there is none. *)
Theorem empty_ring_with_hole_raises (fuel : nat) hole_coords
    (min_points : option Z) (max_edge_length : option F)
    (boundary : option (list (point F))) kw :
  concat hole_coords ≠ [] →
  generate_mesh fuel [] hole_coords min_points max_edge_length
    false boundary kw [] = (Raise IndexError, []).
Proof.
  intros Hne. unfold generate_mesh, ebind, elift.
  assert (mesh_setup [] hole_coords false boundary = Raise IndexError) as ->;
    [| done].
  destruct (ensure_unique_Ok (@nil (point F))) as (poly & Hpoly & _).
  assert (poly = []) as -> by by apply (ensure_unique_nil _ _ Hpoly).
  destruct (omapM_ensure_unique_Ok hole_coords) as (holes & Hholes & Hall).
  assert (concat holes ≠ []) as Hhne.
  { intros Hnil. by apply (concat_ensure_unique_nil _ _ Hall) in Hnil. }
  destruct (mesh_setup_coords [] hole_coords false None [] holes)
    as (xmin & dx & ymin & dy & Hxmin & Hdx & Hymin & Hdy); [done.. |].
  unfold mesh_setup. rewrite Hpoly, Hholes. simpl in *.
  rewrite Hxmin, Hdx, Hymin, Hdy. simpl.
  destruct holes as [|hole holes]; [done |].
  by destruct boundary.
Qed.

Lemma elem_of_np_roll_left {A : Type} (l : list A) (x : A) :
  x ∈ np_roll_left l → x ∈ l.
Proof.
  destruct l as [|y l]; [done |]. simpl.
  rewrite elem_of_app, !elem_of_cons, elem_of_nil. tauto.
Qed.

Lemma elem_of_cycle_facets (l : list nat) (f : nat * nat) :
  f ∈ cycle_facets l → f.1 ∈ l ∧ f.2 ∈ l.
Proof.
  destruct f as [a b]. unfold cycle_facets. intros Hf. split.
  - by eapply elem_of_zip_l.
  - eapply elem_of_np_roll_left. by eapply elem_of_zip_r.
Qed.

Lemma length_np_roll_left {A : Type} (l : list A) :
  length (np_roll_left l) = length l.
Proof. destruct l; [done |]. simpl. rewrite length_app. simpl. lia. Qed.

Lemma length_cycle_facets (l : list nat) : length (cycle_facets l) = length l.
Proof.
  unfold cycle_facets. rewrite length_zip_with_l_eq; [done |].
  by rewrite length_np_roll_left.
Qed.

Lemma length_hole_cycles (start : nat) holes :
  length (hole_cycles (F := F) start holes) = length (concat holes).
Proof.
  revert start. induction holes as [|hole holes IH]; intros start; [done |].
  simpl. rewrite !length_app, length_cycle_facets, IH.
  unfold np_arange. by rewrite length_seq.
Qed.

(** A facet of a hole joins two points of that hole: the positions it names
    in the combined array hold coordinates of one and the same ring. *)
Lemma hole_cycles_same_hole (prefix : list (point F)) holes (f : nat * nat) :
  f ∈ hole_cycles (length prefix) holes →
  ∃ hole a b,
    hole ∈ holes ∧
    (prefix ++ concat holes) !! f.1 = Some a ∧
    (prefix ++ concat holes) !! f.2 = Some b ∧
    a ∈ hole ∧ b ∈ hole.
Proof.
  revert prefix. induction holes as [|hole holes IH]; intros prefix; simpl.
  { by intros ?%elem_of_nil. }
  intros [Hf | Hf]%elem_of_app.
  - apply elem_of_cycle_facets in Hf as [H1 H2]. unfold np_arange in H1, H2.
    apply elem_of_seq in H1, H2.
    destruct (lookup_lt_is_Some_2 hole (f.1 - length prefix)) as [a Ha]; [lia |].
    destruct (lookup_lt_is_Some_2 hole (f.2 - length prefix)) as [b Hb]; [lia |].
    exists hole, a, b. split_and!; [left | | | by eapply list_elem_of_lookup_2..].
    + rewrite lookup_app_r, lookup_app_l by lia. done.
    + rewrite lookup_app_r, lookup_app_l by lia. done.
  - replace (length prefix + length hole) with (length (prefix ++ hole)) in Hf
      by by rewrite length_app.
    destruct (IH _ Hf) as (hole' & a & b & Hhole' & Ha & Hb & Hin).
    exists hole', a, b. rewrite <- app_assoc in Ha, Hb.
    split_and!; [by right | done.. | tauto | tauto].
Qed.

Lemma elem_of_hole_cycles (start : nat) holes (f : nat * nat) :
  f ∈ hole_cycles (F := F) start holes →
  start ≤ f.1 < start + length (concat holes) ∧
  start ≤ f.2 < start + length (concat holes).
Proof.
  revert start. induction holes as [|hole holes IH]; intros start; simpl.
  { by intros ?%elem_of_nil. }
  rewrite length_app. intros [Hf | Hf]%elem_of_app.
  - apply elem_of_cycle_facets in Hf as [H1 H2]. unfold np_arange in H1, H2.
    apply elem_of_seq in H1, H2. lia.
  - apply IH in Hf. lia.
Qed.

(** X12: with [convex_hull=False] every facet handed to the engine names
    two positions of the point array handed with it, whatever the boundary
    subset; no facet reaches past the points. *)
Theorem facets_index_the_points poly_coords hole_coords
    (boundary : option (list (point F))) su :
  mesh_setup poly_coords hole_coords false boundary = Ok su →
  Forall (λ f, f.1 < length (mi_points (su_info su)) ∧
               f.2 < length (mi_points (su_info su)))
    (mi_facets (su_info su)).
Proof.
  intros (poly & holes & xmin & ymin & indices & facets & indices' &
          Hpoly & Hholes & _ & _ & _ & _ & _ & Hpoints & [Hkept ->] & Hloop &
          _)%mesh_setup_Ok.
  assert (∀ i, i ∈ indices → i < length poly) as Hrange.
  { destruct boundary as [b|].
    - apply boundary_indices_Ok in Hkept as [_ Hmem].
      intros i [Hi%elem_of_seq _]%Hmem. simpl in Hi. lia.
    - subst indices. intros i Hi%elem_of_seq. simpl in Hi. lia. }
  rewrite Hpoints, length_fmap, length_app.
  assert (Forall (λ f : nat * nat, f.1 < length poly + length (concat holes) ∧
                                   f.2 < length poly + length (concat holes))
            (cycle_facets indices)) as Houter.
  { apply Forall_forall. intros f [H1%Hrange H2%Hrange]%elem_of_cycle_facets. lia. }
  destruct (last indices) as [final|] eqn:Hfinal.
  - rewrite (hole_facets_loop_Ok _ _ _ final) in Hloop by done.
    injection Hloop as _ <-. apply Forall_app. split; [done |].
    apply Forall_forall. intros f Hf%elem_of_hole_cycles.
    apply last_Some_elem_of, Hrange in Hfinal. lia.
  - destruct holes as [|hole holes]; simpl in Hloop.
    + by injection Hloop as _ <-.
    + by rewrite Hfinal in Hloop.
Qed.

(** X13: for every setup that succeeds, the point array handed to the engine
    is the deduplicated outer ring followed by the deduplicated holes, each
    coordinate moved by [r0], and there is one hole marker per hole, in
    order: the centroid of the deduplicated hole moved by the same [r0]. *)
Theorem points_and_hole_markers poly_coords hole_coords (convex_hull : bool)
    (boundary : option (list (point F))) su :
  mesh_setup poly_coords hole_coords convex_hull boundary = Ok su →
  ∃ poly holes,
    ensure_unique poly_coords = Ok poly ∧
    Forall2 (λ hole hole', ensure_unique hole = Ok hole') hole_coords holes ∧
    mi_points (su_info su) =
      (λ c, pt_sub c (su_r0 su)) <$> poly ++ concat holes ∧
    Forall2 (λ hole marker,
               ∃ c, polygon_centroid hole = Some c ∧
                    marker = pt_sub c (su_r0 su))
      holes (mi_holes (su_info su)).
Proof.
  intros (poly & holes & xmin & ymin & indices & facets & indices' &
          Hpoly & Hholes & _ & _ & _ & _ & _ & Hpoints & _ & _ &
          Hmarkers)%mesh_setup_Ok.
  exists poly, holes. split_and!; [done | by apply omapM_Ok | done |].
  apply omapM_Ok in Hmarkers. eapply Forall2_impl; [done |].
  intros hole marker (c & Hc%or_raise_Ok & [= <-])%obind_Ok. by exists c.
Qed.

(** X14: without a boundary subset the facets of the holes are right: after
    the facets of the outer ring come one facet per hole point, starting at
    position [len(poly_coords)] of the deduplicated ring, and every one of
    them joins two points of one and the same hole. *)
Theorem hole_facets_join_hole_points poly_coords hole_coords
    (convex_hull : bool) su :
  mesh_setup poly_coords hole_coords convex_hull None = Ok su →
  ∃ poly holes outer,
    ensure_unique poly_coords = Ok poly ∧
    omapM ensure_unique hole_coords = Ok holes ∧
    (convex_hull = false → outer = cycle_facets (seq 0 (length poly))) ∧
    mi_facets (su_info su) = outer ++ hole_cycles (length poly) holes ∧
    length (hole_cycles (F := F) (length poly) holes) = length (concat holes) ∧
    Forall (λ f, ∃ hole a b,
                   hole ∈ holes ∧
                   (poly ++ concat holes) !! f.1 = Some a ∧
                   (poly ++ concat holes) !! f.2 = Some b ∧
                   a ∈ hole ∧ b ∈ hole)
      (hole_cycles (length poly) holes).
Proof.
  intros (poly & holes & xmin & ymin & indices & facets & indices' &
          Hpoly & Hholes & _ & _ & _ & _ & _ & _ & Houter & Hloop &
          _)%mesh_setup_Ok.
  assert (indices = seq 0 (length poly)) as ->.
  { destruct convex_hull; [by destruct Houter as (_ & -> & _) |].
    by destruct Houter as [-> _]. }
  exists poly, holes, facets. split_and!; [done.. | | | |].
  - intros ->. by destruct Houter as [_ ->].
  - destruct (decide (length poly = 0)) as [Hzero | Hpos].
    + rewrite Hzero in *. destruct holes as [|hole holes]; simpl in Hloop;
        [| done]. injection Hloop as _ <-. simpl. by rewrite app_nil_r.
    + rewrite (hole_facets_loop_Ok _ _ _ (length poly - 1)) in Hloop
        by by apply last_seq.
      injection Hloop as _ <-.
      by replace (length poly - 1 + 1) with (length poly) by lia.
  - apply length_hole_cycles.
  - apply Forall_forall. intros f Hf. by apply hole_cycles_same_hole.
Qed.

End SetupMore.

(** ** oriented_boundary: bad indices, negative indices, the way back *)

Section BoundaryMore.
Context {F : Type} `{!Scalar F, !Geometry F}.
Implicit Types (points ring : list (point F)) (xy : point F).
Implicit Types (boundary_edges : list (Z * Z)).

Lemma np_get_Ok_or_Raise {A : Type} (a : list A) (i : Z) :
  (∃ x, np_get a i = Ok x) ∨ np_get a i = Raise IndexError.
Proof.
  unfold np_get. destruct (0 <=? i)%Z.
  - destruct (a !! Z.to_nat i); simpl; eauto.
  - destruct (- Z.of_nat (length a) <=? i)%Z; [| by right].
    destruct (a !! Z.to_nat (Z.of_nat (length a) + i)); simpl; eauto.
Qed.

Lemma np_get_out_of_range {A : Type} (a : list A) (i : Z) :
  ¬ (- Z.of_nat (length a) ≤ i < Z.of_nat (length a))%Z →
  np_get a i = Raise IndexError.
Proof.
  intros Hout. unfold np_get. destruct (0 <=? i)%Z eqn:Hpos.
  - apply Z.leb_le in Hpos.
    rewrite (proj2 (lookup_ge_None a (Z.to_nat i))); [done | lia].
  - apply Z.leb_gt in Hpos.
    destruct (- Z.of_nat (length a) <=? i)%Z eqn:Hlow; [| done].
    apply Z.leb_le in Hlow. lia.
Qed.

Lemma np_get_mod {A : Type} (a : list A) (i : Z) :
  (- Z.of_nat (length a) ≤ i < Z.of_nat (length a))%Z →
  np_get a (i mod Z.of_nat (length a)) = np_get a i.
Proof.
  intros Hin. destruct (decide (0 ≤ i)%Z) as [Hpos | Hneg].
  - by rewrite Z.mod_small by lia.
  - replace (i mod Z.of_nat (length a))%Z with (Z.of_nat (length a) + i)%Z.
    + unfold np_get.
      rewrite (proj2 (Z.leb_le 0 (Z.of_nat (length a) + i))) by lia.
      rewrite (proj2 (Z.leb_gt 0 i)) by lia.
      by rewrite (proj2 (Z.leb_le (- Z.of_nat (length a)) i)) by lia.
    + apply (Z.mod_unique _ _ (-1)); lia.
Qed.

Lemma edge_segment_Ok_or_Raise points (e : Z * Z) :
  (∃ s, edge_segment points e = Ok s) ∨ edge_segment points e = Raise IndexError.
Proof.
  unfold edge_segment.
  destruct (np_get_Ok_or_Raise points e.1) as [[a ->] | ->]; [| by right].
  simpl. destruct (np_get_Ok_or_Raise points e.2) as [[b ->] | ->]; simpl; eauto.
Qed.

(** X15: an edge that names a vertex outside [-len(points), len(points))
    makes the call raise [IndexError], whatever the other edges are. *)
Theorem edge_out_of_range_raises points boundary_edges (e : Z * Z) :
  e ∈ boundary_edges →
  ¬ ((- Z.of_nat (length points) ≤ e.1 < Z.of_nat (length points))%Z ∧
     (- Z.of_nat (length points) ≤ e.2 < Z.of_nat (length points))%Z) →
  oriented_boundary points boundary_edges = Raise IndexError.
Proof.
  intros He Hout. unfold oriented_boundary.
  rewrite (omapM_Raise _ _ IndexError e); [done | | done |].
  - intros e' _. apply edge_segment_Ok_or_Raise.
  - unfold edge_segment.
    destruct (decide (- Z.of_nat (length points) ≤ e.1 < Z.of_nat (length points))%Z)
      as [Hin | Hbad].
    + destruct (np_get_Ok_or_Raise points e.1) as [[a ->] | ->]; [| done].
      simpl. rewrite np_get_out_of_range; [done | tauto].
    + by rewrite np_get_out_of_range.
Qed.

(** X16: an index counted from the end names the same vertex as the index
    counted from the start: edges written with negative indices give the
    result of the same edges written with indices in [0, len(points)). *)
Theorem negative_indices_wrap points boundary_edges :
  Forall (λ e : Z * Z,
            (- Z.of_nat (length points) ≤ e.1 < Z.of_nat (length points))%Z ∧
            (- Z.of_nat (length points) ≤ e.2 < Z.of_nat (length points))%Z)
    boundary_edges →
  oriented_boundary points
    ((λ e : Z * Z, ((e.1 mod Z.of_nat (length points))%Z,
                    (e.2 mod Z.of_nat (length points))%Z)) <$> boundary_edges) =
  oriented_boundary points boundary_edges.
Proof.
  intros Hall. unfold oriented_boundary.
  assert (omapM (edge_segment points)
            ((λ e : Z * Z, ((e.1 mod Z.of_nat (length points))%Z,
                            (e.2 mod Z.of_nat (length points))%Z)) <$>
             boundary_edges) =
          omapM (edge_segment points) boundary_edges) as ->; [| done].
  induction Hall as [|e edges [H1 H2] _ IH]; [done |].
  rewrite fmap_cons. cbn [omapM]. rewrite IH.
  assert (edge_segment points
            ((e.1 mod Z.of_nat (length points))%Z,
             (e.2 mod Z.of_nat (length points))%Z) =
          edge_segment points e) as ->; [| done].
  unfold edge_segment. simpl. by rewrite !np_get_mod.
Qed.

Lemma lookup_indices_distinct points ring (js : list nat) :
  (∀ i j p q, points !! i = Some p → points !! j = Some q →
              pt_eqb p q = true → i = j) →
  Forall2 (λ j xy, ∃ q, points !! j = Some q ∧ pt_eqb q xy = true) js ring →
  lookup_indices points ring = Ok js.
Proof.
  intros Hnd Hall. apply lookup_indices_Ok.
  apply Forall2_flip. eapply Forall2_impl; [done |].
  intros j xy (q & Hq & Hqxy). apply index_of_Some. split; [by exists q |].
  intros j' q' Hlt Hq'. destruct (pt_eqb q' xy) eqn:Hq'xy; [| done].
  assert (j' = j); [| lia]. apply (Hnd j' j q' q); [done.. |].
  eapply pt_eqb_trans; [done |]. by rewrite pt_eqb_sym.
Qed.

(** X17: indices to coordinates and back.  When no two rows of the vertex
    array are equal and every coordinate of the exterior ring of each
    polygon is equal to the row of the vertex named in [js] (equal by [==]
    on both components, so that the rows hold no NaN), the loop returned for
    the polygon is [js] without its closing index. *)
Theorem loops_recover_indices points boundary_edges
    (edges : list (point F * point F)) (polygons : list polygon)
    (rings : list (list nat)) :
  (∀ i j p q, points !! i = Some p → points !! j = Some q →
              pt_eqb p q = true → i = j) →
  omapM (edge_segment points) boundary_edges = Ok edges →
  polygonize edges = Some polygons →
  Forall2 (λ p js,
             Forall2 (λ j xy, ∃ q, points !! j = Some q ∧ pt_eqb q xy = true)
               js (exterior_coords (orient p)))
    polygons rings →
  oriented_boundary points boundary_edges =
    Ok ((λ js, removelast js) <$> rings).
Proof.
  intros Hnd Hedges Hpolygons Hrings. unfold oriented_boundary.
  rewrite Hedges. simpl. rewrite Hpolygons. simpl.
  apply omapM_Ok. apply Forall2_fmap_r.
  eapply Forall2_impl; [done |]. intros p js Hjs. simpl in *.
  by rewrite (lookup_indices_distinct _ _ js).
Qed.

End BoundaryMore.

(** * A concrete instance: binary64 scalars and small stand-in libraries *)

Module Demo.

(** [float64] scalars are Rocq's primitive binary64 floats. *)
Definition float_eq_dec : EqDecision float.
Proof.
  intros x y. destruct (PrimFloat.Leibniz.eqb x y) eqn:Heq.
  - left. by apply FloatAxioms.Leibniz.eqb_spec.
  - right. intros Hxy. apply FloatAxioms.Leibniz.eqb_spec in Hxy. congruence.
Defined.

Lemma float_neq (x y : float) : PrimFloat.Leibniz.eqb x y = false → x ≠ y.
Proof. intros Hxy Heq. apply FloatAxioms.Leibniz.eqb_spec in Heq. congruence. Qed.

Lemma SFcompare_antisym (a b : spec_float) :
  SFcompare b a = option_map CompOpp (SFcompare a b).
Proof.
  destruct a as [sa|sa| |sa ma ea], b as [sb|sb| |sb mb eb]; simpl;
    try reflexivity; try (by destruct sa); try (by destruct sb);
    try (by destruct sa, sb).
  destruct sa, sb; simpl; try reflexivity.
  - rewrite (Z.compare_antisym ea eb).
    destruct (ea ?= eb)%Z; simpl; try reflexivity.
    do 2 f_equal. symmetry. exact (Pos.compare_cont_antisym ma mb Eq).
  - rewrite (Z.compare_antisym ea eb).
    destruct (ea ?= eb)%Z; simpl; try reflexivity.
    f_equal. symmetry. exact (Pos.compare_cont_antisym ma mb Eq).
Qed.

Lemma float_leb_of_not_ltb (a b : float) :
  PrimFloat.leb a a = true → PrimFloat.leb b b = true →
  PrimFloat.ltb a b = false → PrimFloat.leb b a = true.
Proof.
  rewrite !leb_spec, ltb_spec. unfold SFleb, SFltb.
  rewrite (SFcompare_antisym (Prim2SF a) (Prim2SF b)).
  intros Ha Hb.
  assert (SFcompare (Prim2SF a) (Prim2SF b) ≠ None) as Hcmp.
  { destruct (Prim2SF a), (Prim2SF b); simpl in *; try done. }
  destruct (SFcompare (Prim2SF a) (Prim2SF b)) as [[| |]|]; simpl; done.
Qed.

(** [==] on binary64: both zeros, the same infinity, or the same finite
    number. *)
Lemma SFeqb_true (a b : spec_float) :
  SFeqb a b = true ↔
  match a, b with
  | S754_zero _, S754_zero _ => True
  | S754_infinity s, S754_infinity s' => s = s'
  | S754_finite s m e, S754_finite s' m' e' => s = s' ∧ m = m' ∧ e = e'
  | _, _ => False
  end.
Proof.
  unfold SFeqb, SFcompare.
  destruct a as [sa|sa| |sa ma ea], b as [sb|sb| |sb mb eb];
    try (by destruct sa); try (by destruct sb); try (by destruct sa, sb);
    try done.
  change (Pcompare ma mb Eq) with (ma ?= mb)%positive.
  destruct sa, sb; try (split; [done | by intros (? & _)]);
    destruct (Z.compare_spec ea eb) as [-> | Hlt | Hgt];
    try (split; [done | intros (_ & _ & ->); lia]);
    destruct (Pos.compare_spec ma mb) as [-> | Hlt | Hgt];
    simpl; try done;
    split; try done; intros (_ & -> & _); lia.
Qed.

Lemma float_eqb_sym (a b : float) : PrimFloat.eqb a b = PrimFloat.eqb b a.
Proof.
  rewrite !FloatAxioms.eqb_spec. apply eq_true_iff_eq. rewrite !SFeqb_true.
  destruct (Prim2SF a), (Prim2SF b); intuition congruence.
Qed.

Lemma float_eqb_trans (a b c : float) :
  PrimFloat.eqb a b = true → PrimFloat.eqb b c = true → PrimFloat.eqb a c = true.
Proof.
  rewrite !FloatAxioms.eqb_spec, !SFeqb_true.
  destruct (Prim2SF a), (Prim2SF b), (Prim2SF c); intuition congruence.
Qed.

Definition float_of_Z (z : Z) : float :=
  match z with
  | Z0 => PrimFloat.zero
  | Zpos _ => PrimFloat.of_uint63 (Uint63.of_Z z)
  | Zneg p => PrimFloat.opp (PrimFloat.of_uint63 (Uint63.of_Z (Zpos p)))
  end.

#[export] Instance float_scalar : Scalar float := {|
  scalar_eq_dec := float_eq_dec;
  flit num den := PrimFloat.div (float_of_Z num) (float_of_Z (Zpos den));
  fadd := PrimFloat.add;
  fsub := PrimFloat.sub;
  fmul := PrimFloat.mul;
  fdiv := PrimFloat.div;
  fsqrt := PrimFloat.sqrt;
  fltb := PrimFloat.ltb;
  fleb := PrimFloat.leb;
  feqb := PrimFloat.eqb;
  finf := PrimFloat.infinity;
  fisfinite := PrimFloat.is_finite;
  finf_not_finite := eq_refl;
  fleb_of_not_fltb := float_leb_of_not_ltb;
  feqb_sym := float_eqb_sym;
  feqb_trans := float_eqb_trans;
|}.

(** A stand-in engine: it keeps the input points and triangulates them as a
    fan around point 0; asked for triangles of area below 1 it adds the
    origin as a vertex and fans around it instead. *)
Definition wants_fine (kw : gmap string (pyval float)) : bool :=
  match kw !! "max_volume" with
  | Some (PyFloat v) => PrimFloat.ltb v 1%float
  | _ => false
  end.

Definition fan_build (mesh_info : MeshInfo float) (kw : gmap string (pyval float))
    : option (TriMesh float) :=
  let pts := mi_points mesh_info in
  let n := length pts in
  if wants_fine kw then
    Some {| mesh_points := pts ++ [(0%float, 0%float)];
            mesh_elements := (λ i, (i, (i + 1) mod n, n)) <$> seq 0 n |}
  else
    Some {| mesh_points := pts;
            mesh_elements := (λ i, (0, i, i + 1)) <$> seq 1 (n - 2) |}.

#[export] Instance fan_triangulator : Triangulator float :=
  {| triangle_build := fan_build |}.

(** Euclidean edge lengths of every triangle. *)
Definition dist (p q : point float) : float :=
  let dx := PrimFloat.sub p.1 q.1 in
  let dy := PrimFloat.sub p.2 q.2 in
  PrimFloat.sqrt (PrimFloat.add (PrimFloat.mul dx dx) (PrimFloat.mul dy dy)).

Definition triangle_edge_lengths (points : list (point float)) (t : triangle)
    : option (list float) :=
  a ← points !! t.1.1; b ← points !! t.1.2; c ← points !! t.2;
  Some [dist a b; dist b c; dist c a].

Definition euclid_edge_lengths (points : list (point float))
    (triangles : list triangle) : option (list float) :=
  (λ per_triangle, concat per_triangle) <$> mapM (triangle_edge_lengths points) triangles.

#[export] Instance euclid_lengths : EdgeLengths float :=
  {| get_edge_lengths := euclid_edge_lengths |}.

(** Stand-in geometry: the hull is the cycle through all points, the
    centroid of a ring is the mean of its vertices, and a set of segments
    that is already listed head to tail is one polygon. *)
Definition mean_point (ring : list (point float)) : option (point float) :=
  match ring with
  | [] => None
  | _ =>
      let n := float_of_Z (Z.of_nat (length ring)) in
      let sx := foldr PrimFloat.add 0%float (fst <$> ring) in
      let sy := foldr PrimFloat.add 0%float (snd <$> ring) in
      Some (PrimFloat.div sx n, PrimFloat.div sy n)
  end.

Definition chain_polygon (segments : list (point float * point float))
    : option (list (list (point float))) :=
  match segments with
  | [] => Some []
  | (a, _) :: _ => Some [(fst <$> segments) ++ [a]]
  end.

#[export] Instance chain_geometry : Geometry float := {|
  convex_hull_simplices coords := Some (cycle_facets (seq 0 (length coords)));
  polygon_centroid := mean_point;
  polygon := list (point float);
  polygonize := chain_polygon;
  orient ring := ring;
  exterior_coords ring := ring;
|}.




(** A geometry that hands back coordinates with zero added to them: every
    number stays what it was, except that [-0.0] comes back as [0.0]. *)
Definition plus_zero (p : point float) : point float :=
  (PrimFloat.add p.1 0%float, PrimFloat.add p.2 0%float).

Definition rezeroing_geometry : Geometry float := {|
  convex_hull_simplices coords := Some (cycle_facets (seq 0 (length coords)));
  polygon_centroid := mean_point;
  polygon := list (point float);
  polygonize := chain_polygon;
  orient ring := ring;
  exterior_coords ring := plus_zero <$> ring;
|}.

(** An engine that gives up on fine meshes: it fails where [fan_build]
    would add a vertex. *)
Definition fragile_triangulator : Triangulator float :=
  {| triangle_build mesh_info kw :=
       if wants_fine kw then None else fan_build mesh_info kw |}.

End Demo.

(** ** The claims on concrete inputs *)

Section DemoRuns.
Import Demo.
Open Scope float_scope.

Definition rectangle : list (point float) := [(0, 0); (4, 0); (4, 2); (0, 2)].

Definition square_hole : list (point float) := [(1, 1); (2, 1); (2, 2); (1, 2)].

(** C1, as stated, fails on the empty polygon: the call raises NumPy's
    zero-size reduction error, not the invalid-configuration error. *)
Lemma empty_polygon_fails_earlier :
  generate_mesh 0 [] [] None None true (Some rectangle) ∅ [] =
    (Raise ZeroSizeReduction, []) ∧
  (generate_mesh 0 [] [] None None true (Some rectangle) ∅ []).1 ≠
    Raise BoundaryWithConvexHull.
Proof. split; [by vm_compute | by vm_compute]. Qed.

(** C2 on the 4 x 2 rectangle with the boundary subset [(0,0), (4,0)]: the
    corners (4,2) and (0,2) are not in the subset, yet each shares its x
    coordinate with a point of it, so all four indices are kept. *)
Lemma boundary_subset_keeps_partial_matches :
  ∃ su, mesh_setup rectangle [] false (Some [(0, 0); (4, 0)]) = Ok su ∧
        mi_facets (su_info su) = [(0, 1); (1, 2); (2, 3); (3, 0)]%nat.
Proof. eexists. split; vm_compute; reflexivity. Qed.

(** C6 on a polygon whose last vertex (1,5) the boundary subset drops: the
    hole occupies positions 4..7 of the point array, and its facets run
    over 3..6. *)
Lemma hole_facets_off_by_dropped_vertices :
  ∃ su,
    mesh_setup [(0, 0); (4, 0); (4, 4); (1, 5)] [square_hole] false
      (Some [(0, 0); (4, 0); (4, 4)]) = Ok su ∧
    drop 4 (mi_points (su_info su)) = (λ p, pt_sub p (su_r0 su)) <$> square_hole ∧
    length (mi_points (su_info su)) = 8%nat ∧
    mi_facets (su_info su) =
      [(0, 1); (1, 2); (2, 0); (3, 4); (4, 5); (5, 6); (6, 3)]%nat.
Proof. eexists. split_and!; vm_compute; reflexivity. Qed.

(** C3, as stated, fails on rows that hold a NaN and on signed zeros.  The
    row (nan, 0) occurs twice in the input and twice in the result, which is
    no shorter than the input; and the row (-0.0, 0), a coordinate of its
    own, is dropped as a repeat of (0.0, 0). *)
Lemma nan_rows_kept_signed_zeros_merged :
  let twice : list (point float) := [(nan, 0); (1, 0); (nan, 0)] in
  ensure_unique twice = Ok twice ∧
  twice !! 0%nat = twice !! 2%nat ∧
  ensure_unique [(0, 0); (neg_zero, 0); (1, 0)] = Ok [(0, 0); (1, 0)] ∧
  neg_zero ≠ 0.
Proof.
  cbv zeta. split_and!; [vm_compute; reflexivity | reflexivity
                        | vm_compute; reflexivity |].
  by apply float_neq.
Qed.

(** C4 at work: the first mesh has four vertices, one iteration adds a
    fifth, and the loop returns. *)
Lemma refinement_exit_meets_targets_demo :
  fleb 4.5 (flit 0 1) = false ∧
  ∃ points triangles calls,
    generate_mesh 5 rectangle [] (Some 5%Z) (Some 4.5) false None ∅ [] =
      (Ok (points, triangles), calls) ∧
    length calls = 2%nat ∧
    ∃ m, max_edge points triangles = Ok m ∧
         fltb 4.5 m = false ∧
         (fleb 4.5 4.5 = true → fleb m m = true → fleb m 4.5 = true) ∧
         (5 ≤ Z.of_nat (length points))%Z.
Proof.
  split; [reflexivity |]. do 3 eexists. split_and!.
  - vm_compute. reflexivity.
  - reflexivity.
  - eapply (refinement_exit_meets_targets 5 rectangle [] 5%Z 4.5 false None ∅);
      [reflexivity | vm_compute; reflexivity].
Defined.

(** C5 at work: three iterations towards an edge length the stand-in engine
    never reaches. *)
Lemma area_bound_schedule_demo :
  ∃ su,
    mesh_setup rectangle [] false None = Ok su ∧
    let calls :=
      (generate_mesh 3 rectangle [] (Some 7%Z) (Some 2.5) false None ∅ []).2 in
    ∃ c c' v m,
      calls !! 1%nat = Some c ∧ calls !! 2%nat = Some c' ∧
      area_bound c = Some (8 / 100) ∧
      area_bound c = Some v ∧ measured (su_r0 su) c = Ok m ∧
      area_bound c' = Some (v * py_min (98 / 100) (sqrt (2.5 / m))).
Proof.
  eexists. split; [vm_compute; reflexivity |].
  pose proof (area_bound_schedule 3 rectangle [] (Some 7%Z) (Some 2.5) false
                None ∅ _ eq_refl) as (_ & Hfirst & Hnext).
  simpl. do 2 eexists.
  assert (∀ A (x : A), Some x = Some x) as Hsome by done.
  edestruct (Hnext 1%nat) as (v & m & Hv & Hm & Hv');
    [lia | vm_compute; apply Hsome | vm_compute; apply Hsome |].
  exists v, m. split_and!; [vm_compute; reflexivity.. | | done | done | done].
  apply Hfirst. vm_compute. reflexivity.
Defined.

(** C7, as stated, fails for [max_volume]: the caller asks for 5, the
    iteration of the loop passes 8/100. *)
Lemma caller_max_volume_replaced :
  let kw : gmap string (pyval float) := {["max_volume" := PyFloat 5]} in
  ∃ c,
    (generate_mesh 5 rectangle [] (Some 5%Z) None false None kw []).2 !! 1%nat
      = Some c ∧
    c.2 !! "max_volume" = Some (PyFloat (8 / 100)) ∧
    c.2 !! "max_volume" ≠ kw !! "max_volume".
Proof.
  eexists. split_and!.
  - vm_compute. reflexivity.
  - vm_compute. reflexivity.
  - intros Heq. vm_compute in Heq.
    apply (f_equal (λ o, match o with Some (PyFloat v) => v | _ => 0 end)) in Heq.
    revert Heq. by apply float_neq.
Qed.



(** C10 at work: vertex 4 repeats the coordinate of vertex 1, and the loop
    built from the edge (0, 4) names vertex 1. *)
Lemma returned_indices_first_match_demo :
  let points := rectangle ++ [(4, 0)] in
  let edges : list (Z * Z) := [(0, 4); (4, 2); (2, 3); (3, 0)]%Z in
  oriented_boundary points edges = Ok [[0; 1; 2; 3]%nat] ∧
  ∃ segments polygons,
    omapM (edge_segment points) edges = Ok segments ∧
    polygonize segments = Some polygons ∧
    Forall2 (λ p loop,
      length loop = (length (exterior_coords (orient p)) - 1)%nat ∧
      ∀ k i, loop !! k = Some i →
        (i < length points)%nat ∧
        ∃ xy q, exterior_coords (orient p) !! k = Some xy ∧
                points !! i = Some q ∧ pt_eqb q xy = true ∧
                ∀ j q', (j < i)%nat → points !! j = Some q' →
                        pt_eqb q' xy = false)
      polygons [[0; 1; 2; 3]%nat].
Proof.
  cbv zeta. split; [vm_compute; reflexivity |].
  apply (returned_indices_first_match (rectangle ++ [(4, 0)])
           [(0, 4); (4, 2); (2, 3); (3, 0)]%Z).
  vm_compute. reflexivity.
Defined.

(** C10, as stated, fails on signed zeros: the loop built from the edges
    through vertex 4, which holds (-0.0, 0), names vertex 0, which holds
    (0.0, 0): the row at the returned index is not the coordinate of the
    polygon vertex. *)
Lemma returned_index_holds_other_zero :
  let points : list (point float) := rectangle ++ [(neg_zero, 0)] in
  let edges : list (Z * Z) := [(4, 1); (1, 2); (2, 3); (3, 4)]%Z in
  ∃ segments ring,
    omapM (edge_segment points) edges = Ok segments ∧
    polygonize segments = Some [ring] ∧
    exterior_coords (orient ring) !! 0%nat = Some (neg_zero, 0) ∧
    oriented_boundary points edges = Ok [[0; 1; 2; 3]%nat] ∧
    points !! 0%nat = Some (0, 0) ∧
    points !! 4%nat = Some (neg_zero, 0) ∧
    neg_zero ≠ 0.
Proof.
  cbv zeta. do 2 eexists.
  split_and!; [vm_compute; reflexivity | reflexivity | reflexivity
              | vm_compute; reflexivity | reflexivity | reflexivity |].
  by apply float_neq.
Qed.

(** *** The further properties on concrete inputs *)

(** A hole inside the rectangle. *)
Definition slot : list (point float) := [(1, 0.5); (2, 0.5); (2, 1.5); (1, 1.5)].

(** The closing point of the ring is given as (-0.0, 0): it is equal to the
    first point and is dropped. *)
Lemma ensure_unique_ignores_repeats_demo :
  (∀ p, p ∈ [(neg_zero, 0) : point float] →
        ∃ q, q ∈ rectangle ∧ pt_eqb q p = true) ∧
  ensure_unique (rectangle ++ [(neg_zero, 0)]) = Ok rectangle.
Proof.
  assert (∀ p, p ∈ [(neg_zero, 0) : point float] →
               ∃ q, q ∈ rectangle ∧ pt_eqb q p = true) as Hclosing.
  { intros p ->%list_elem_of_singleton. exists (0, 0).
    split; [left | reflexivity]. }
  split; [exact Hclosing |].
  rewrite (ensure_unique_ignores_repeats rectangle [(neg_zero, 0)] Hclosing).
  vm_compute. reflexivity.
Defined.

Lemma generate_mesh_ignores_duplicates_demo :
  ensure_unique (rectangle ++ [(4, 0); (0, 0)]) = Ok rectangle ∧
  omapM ensure_unique [slot ++ slot] = Ok [slot] ∧
  generate_mesh 5 (rectangle ++ [(4, 0); (0, 0)]) [slot ++ slot] (Some 5%Z) None
    false None ∅ [] =
  generate_mesh 5 rectangle [slot] (Some 5%Z) None false None ∅ [].
Proof.
  assert (ensure_unique (rectangle ++ [(4, 0); (0, 0)]) = Ok rectangle)
    as Hpoly by (vm_compute; reflexivity).
  assert (omapM ensure_unique [slot ++ slot] = Ok [slot])
    as Hholes by (vm_compute; reflexivity).
  split_and!; [exact Hpoly | exact Hholes |].
  exact (generate_mesh_ignores_duplicates 5 _ _ (Some 5%Z) None false None ∅
           _ _ [] Hpoly Hholes).
Defined.

Lemma no_targets_single_build_demo :
  ∃ su,
    mesh_setup rectangle [slot] false None = Ok su ∧
    no_edge_target (Some (-1)) = true ∧
    generate_mesh 0 rectangle [slot] None (Some (-1)) false None ∅ [] =
      (built (su_r0 su) (su_info su, ∅), [(su_info su, ∅)]).
Proof.
  eexists. split_and!; [vm_compute; reflexivity | reflexivity |].
  by apply no_targets_single_build.
Defined.

Lemma targets_met_single_build_demo :
  ∃ su points triangles max_length,
    mesh_setup rectangle [] false None = Ok su ∧
    built (su_r0 su) (su_info su, ∅) = Ok (points, triangles) ∧
    max_edge points triangles = Ok max_length ∧
    needs_refinement 4 (edge_target (Some 4.5)) points max_length = false ∧
    generate_mesh 0 rectangle [] (Some 4%Z) (Some 4.5) false None ∅ [] =
      (Ok (points, triangles), [(su_info su, ∅)]).
Proof.
  do 4 eexists.
  assert (∀ A (x : A), x = x) as Hrefl by done.
  split_and!; [vm_compute; apply Hrefl.. |].
  eapply (targets_met_single_build 0 rectangle [] (Some 4%Z) (Some 4.5) false
            None ∅); vm_compute; reflexivity.
Defined.

Lemma returned_mesh_is_last_build_demo :
  ∃ points triangles calls,
    generate_mesh 5 rectangle [] (Some 5%Z) (Some 4.5) false None ∅ [] =
      (Ok (points, triangles), calls) ∧
    length calls = 2%nat ∧
    ∃ su c mesh,
      mesh_setup rectangle [] false None = Ok su ∧
      last calls = Some c ∧
      triangle_build c.1 c.2 = Some mesh ∧
      points = (λ p, pt_add p (su_r0 su)) <$> mesh_points mesh ∧
      triangles = mesh_elements mesh.
Proof.
  do 3 eexists. split_and!; [vm_compute; reflexivity | reflexivity |].
  apply (returned_mesh_is_last_build 5 rectangle [] (Some 5%Z) (Some 4.5)
           false None ∅).
  vm_compute. reflexivity.
Defined.

Lemma engine_failure_ends_run_demo :
  let run :=
    @generate_mesh float _ fragile_triangulator _ _ 5 rectangle [] (Some 5%Z)
      None false None ∅ [] in
  ∃ c,
    run.2 !! 1%nat = Some c ∧
    @triangle_build float fragile_triangulator c.1 c.2 = None ∧
    run.1 = Raise EngineError ∧ length run.2 = 2%nat.
Proof.
  cbv zeta. eexists.
  assert (∀ A (x : A), Some x = Some x) as Hsome by done.
  split; [vm_compute; apply Hsome |].
  split; [vm_compute; reflexivity |].
  eapply (@engine_failure_ends_run float _ fragile_triangulator _ _ 5 rectangle
            [] (Some 5%Z) None false None ∅ 1%nat);
    [vm_compute; apply Hsome | vm_compute; reflexivity].
Defined.

Lemma min_points_met_demo :
  ∃ points triangles calls,
    generate_mesh 5 rectangle [] (Some 5%Z) None false None ∅ [] =
      (Ok (points, triangles), calls) ∧
    length calls = 2%nat ∧
    (5 ≤ Z.of_nat (length points))%Z.
Proof.
  do 3 eexists. split_and!; [vm_compute; reflexivity | reflexivity |].
  eapply (min_points_met 5 rectangle [] 5%Z None false None ∅).
  vm_compute. reflexivity.
Defined.

Lemma edge_target_met_demo :
  fleb 4.25 (flit 0 1) = false ∧
  ∃ points triangles calls,
    generate_mesh 5 rectangle [] None (Some 4.25) false None ∅ [] =
      (Ok (points, triangles), calls) ∧
    length calls = 2%nat ∧
    ∃ m, max_edge points triangles = Ok m ∧ fltb 4.25 m = false.
Proof.
  split; [reflexivity |]. do 3 eexists.
  split_and!; [vm_compute; reflexivity | reflexivity |].
  eapply (edge_target_met 5 rectangle [] None 4.25 false None ∅);
    [reflexivity | vm_compute; reflexivity].
Defined.

Lemma full_boundary_same_as_none_demo :
  let b : list (point float) := [(0, 2); (4, 2); (9, 9); (4, 0); (0, 0)] in
  ∃ su,
    mesh_setup rectangle [slot] false None = Ok su ∧
    (∀ p, p ∈ rectangle → p ∈ b) ∧
    Forall (λ c, feqb c.1 c.1 = true ∨ feqb c.2 c.2 = true)
      (mi_points (su_info su)) ∧
    generate_mesh 5 rectangle [slot] (Some 5%Z) None false (Some b) ∅ [] =
    generate_mesh 5 rectangle [slot] (Some 5%Z) None false None ∅ [].
Proof.
  cbv zeta. eexists.
  assert (∀ p : point float,
            p ∈ rectangle → p ∈ [(0, 2); (4, 2); (9, 9); (4, 0); (0, 0)])
    as Hall.
  { intros p. unfold rectangle. rewrite !elem_of_cons, !elem_of_nil. tauto. }
  split; [vm_compute; reflexivity |]. split; [exact Hall |].
  match goal with
  | |- ?P ∧ _ => assert P as Hnum
  end.
  { vm_compute. repeat (constructor; [left; reflexivity |]). constructor. }
  split; [exact Hnum |].
  eapply (full_boundary_same_as_none 5 rectangle [slot] (Some 5%Z) None);
    [vm_compute; reflexivity | exact Hall | exact Hnum].
Defined.

Lemma empty_boundary_raises_demo :
  rectangle ≠ [] ∧
  generate_mesh 5 rectangle [] None None false (Some []) ∅ [] =
    (Raise BroadcastError, []).
Proof.
  assert (rectangle ≠ []) as Hne by done.
  split; [exact Hne |]. by apply empty_boundary_raises.
Defined.

Lemma empty_ring_with_hole_raises_demo :
  concat [slot] ≠ [] ∧
  generate_mesh 5 [] [slot] None None false None ∅ [] = (Raise IndexError, []).
Proof.
  assert (concat [slot] ≠ []) as Hne by done.
  split; [exact Hne |]. by apply empty_ring_with_hole_raises.
Defined.

Lemma facets_index_the_points_demo :
  ∃ su,
    mesh_setup [(0, 0); (4, 0); (4, 4); (1, 5)] [square_hole] false
      (Some [(0, 0); (4, 0); (4, 4)]) = Ok su ∧
    Forall (λ f, (f.1 < length (mi_points (su_info su)))%nat ∧
                 (f.2 < length (mi_points (su_info su)))%nat)
      (mi_facets (su_info su)).
Proof.
  eexists. split; [vm_compute; reflexivity |].
  apply (facets_index_the_points [(0, 0); (4, 0); (4, 4); (1, 5)] [square_hole]
           (Some [(0, 0); (4, 0); (4, 4)])).
  vm_compute. reflexivity.
Defined.

Lemma points_and_hole_markers_demo :
  ∃ su,
    mesh_setup rectangle [slot ++ [(1, 0.5)]] true None = Ok su ∧
    mi_holes (su_info su) = [(-0.5, 0)] ∧
    ∃ poly holes,
      ensure_unique rectangle = Ok poly ∧
      Forall2 (λ hole hole', ensure_unique hole = Ok hole')
        [slot ++ [(1, 0.5)]] holes ∧
      mi_points (su_info su) =
        (λ c, pt_sub c (su_r0 su)) <$> poly ++ concat holes ∧
      Forall2 (λ hole marker,
                 ∃ c, polygon_centroid hole = Some c ∧
                      marker = pt_sub c (su_r0 su))
        holes (mi_holes (su_info su)).
Proof.
  eexists. split_and!; [vm_compute; reflexivity.. |].
  apply (points_and_hole_markers rectangle [slot ++ [(1, 0.5)]] true None).
  vm_compute. reflexivity.
Defined.

Lemma hole_facets_join_hole_points_demo :
  ∃ su,
    mesh_setup rectangle [slot; square_hole] false None = Ok su ∧
    mi_facets (su_info su) =
      [(0, 1); (1, 2); (2, 3); (3, 0);
       (4, 5); (5, 6); (6, 7); (7, 4);
       (8, 9); (9, 10); (10, 11); (11, 8)]%nat ∧
    ∃ poly holes outer,
      ensure_unique rectangle = Ok poly ∧
      omapM ensure_unique [slot; square_hole] = Ok holes ∧
      (false = false → outer = cycle_facets (seq 0 (length poly))) ∧
      mi_facets (su_info su) = outer ++ hole_cycles (length poly) holes ∧
      length (hole_cycles (length poly) holes) = length (concat holes) ∧
      Forall (λ f, ∃ hole a b,
                     hole ∈ holes ∧
                     (poly ++ concat holes) !! f.1 = Some a ∧
                     (poly ++ concat holes) !! f.2 = Some b ∧
                     a ∈ hole ∧ b ∈ hole)
        (hole_cycles (length poly) holes).
Proof.
  eexists. split_and!; [vm_compute; reflexivity.. |].
  apply (hole_facets_join_hole_points rectangle [slot; square_hole] false).
  vm_compute. reflexivity.
Defined.

Lemma mesh_setup_boundary_facets_demo :
  ∃ su,
    mesh_setup [(0, 0); (4, 0); (4, 4); (1, 5)] [square_hole] false
      (Some [(0, 0); (4, 0); (4, 4)]) = Ok su ∧
    ∃ poly holes kept,
      ensure_unique [(0, 0); (4, 0); (4, 4); (1, 5)] = Ok poly ∧
      omapM ensure_unique [square_hole] = Ok holes ∧
      sublist kept (seq 0 (length poly)) ∧
      (∀ i, i ∈ kept ↔
            (i < length poly)%nat ∧
            partial_match (mi_points (su_info su)) [(0, 0); (4, 0); (4, 4)]
              (su_r0 su) i) ∧
      mi_facets (su_info su) =
        cycle_facets kept ++
        match last kept with
        | Some final => hole_cycles (final + 1) holes
        | None => []
        end.
Proof.
  eexists. split; [vm_compute; reflexivity |].
  apply (mesh_setup_boundary_facets [(0, 0); (4, 0); (4, 4); (1, 5)]
           [square_hole] [(0, 0); (4, 0); (4, 4)]).
  vm_compute. reflexivity.
Defined.

Lemma edge_out_of_range_raises_demo :
  let edges : list (Z * Z) := [(0, 1); (1, 4)]%Z in
  (1, 4)%Z ∈ edges ∧
  ¬ ((- Z.of_nat (length rectangle) ≤ 1 < Z.of_nat (length rectangle))%Z ∧
     (- Z.of_nat (length rectangle) ≤ 4 < Z.of_nat (length rectangle))%Z) ∧
  oriented_boundary rectangle edges = Raise IndexError.
Proof.
  cbv zeta.
  assert ((1, 4)%Z ∈ [(0, 1); (1, 4)]%Z) as Hin by (right; left).
  assert (¬ ((- Z.of_nat (length rectangle) ≤ 1 < Z.of_nat (length rectangle))%Z ∧
             (- Z.of_nat (length rectangle) ≤ 4 < Z.of_nat (length rectangle))%Z))
    as Hout by (simpl; lia).
  split_and!; [exact Hin | exact Hout |].
  exact (edge_out_of_range_raises rectangle _ (1, 4)%Z Hin Hout).
Defined.

Lemma negative_indices_wrap_demo :
  let edges : list (Z * Z) := [(0, -3); (-3, 2); (2, -1); (-1, 0)]%Z in
  Forall (λ e : Z * Z,
            (- Z.of_nat (length rectangle) ≤ e.1 < Z.of_nat (length rectangle))%Z ∧
            (- Z.of_nat (length rectangle) ≤ e.2 < Z.of_nat (length rectangle))%Z)
    edges ∧
  oriented_boundary rectangle edges = Ok [[0; 1; 2; 3]%nat] ∧
  oriented_boundary rectangle
    ((λ e : Z * Z, ((e.1 mod Z.of_nat (length rectangle))%Z,
                    (e.2 mod Z.of_nat (length rectangle))%Z)) <$> edges) =
  oriented_boundary rectangle edges.
Proof.
  cbv zeta.
  assert (Forall (λ e : Z * Z,
            (- Z.of_nat (length rectangle) ≤ e.1 < Z.of_nat (length rectangle))%Z ∧
            (- Z.of_nat (length rectangle) ≤ e.2 < Z.of_nat (length rectangle))%Z)
            [(0, -3); (-3, 2); (2, -1); (-1, 0)]%Z) as Hall.
  { repeat constructor; simpl; lia. }
  split_and!; [exact Hall | vm_compute; reflexivity |].
  exact (negative_indices_wrap rectangle _ Hall).
Defined.

(** The exterior ring comes back with (0.0, 0) and (0.0, 2) where the
    vertex array holds (-0.0, 0) and (-0.0, 2); the loop names the vertices
    all the same. *)
Lemma loops_recover_indices_demo :
  let points : list (point float) :=
    [(neg_zero, 0); (4, 0); (4, 2); (neg_zero, 2)] in
  let edges : list (Z * Z) := [(0, 1); (1, 2); (2, 3); (3, 0)]%Z in
  (∀ i j p q, points !! i = Some p → points !! j = Some q →
              pt_eqb p q = true → i = j) ∧
  ∃ segments polygons,
    omapM (edge_segment points) edges = Ok segments ∧
    chain_polygon segments = Some polygons ∧
    Forall2 (λ p js,
               Forall2 (λ j xy, ∃ q, points !! j = Some q ∧ pt_eqb q xy = true)
                 js (plus_zero <$> p))
      polygons [[0; 1; 2; 3; 0]%nat] ∧
    @oriented_boundary float _ rezeroing_geometry points edges =
      Ok [[0; 1; 2; 3]%nat].
Proof.
  cbv zeta.
  assert (∀ (i j : nat) (p q : point float),
            [(neg_zero, 0); (4, 0); (4, 2); (neg_zero, 2)] !! i = Some p →
            [(neg_zero, 0); (4, 0); (4, 2); (neg_zero, 2)] !! j = Some q →
            pt_eqb p q = true → i = j) as Hnd.
  { intros [|[|[|[|i]]]] [|[|[|[|j]]]] p q; simpl;
      intros Hp Hq; try discriminate Hp; try discriminate Hq;
      apply (inj Some) in Hp as <-; apply (inj Some) in Hq as <-;
      try reflexivity; vm_compute; intros Heq; discriminate Heq. }
  split; [exact Hnd |]. do 2 eexists.
  assert (omapM (edge_segment [(neg_zero, 0); (4, 0); (4, 2); (neg_zero, 2)])
            [(0, 1); (1, 2); (2, 3); (3, 0)]%Z =
          Ok [((neg_zero, 0), (4, 0)); ((4, 0), (4, 2));
              ((4, 2), (neg_zero, 2)); ((neg_zero, 2), (neg_zero, 0))])
    as Hsegments by (vm_compute; reflexivity).
  assert (Forall2 (λ (p : list (point float)) js,
                     Forall2 (λ j xy,
                                ∃ q, [(neg_zero, 0); (4, 0); (4, 2);
                                      (neg_zero, 2)] !! j = Some q ∧
                                     pt_eqb q xy = true)
                       js (plus_zero <$> p))
            [[(neg_zero, 0); (4, 0); (4, 2); (neg_zero, 2); (neg_zero, 0)]]
            [[0; 1; 2; 3; 0]%nat])
    as Hrings.
  { constructor; [| constructor].
    repeat (constructor; [eexists; split; reflexivity |]). constructor. }
  split_and!; [exact Hsegments | reflexivity | exact Hrings |].
  exact (@loops_recover_indices float _ rezeroing_geometry _ _ _ _
           [[0; 1; 2; 3; 0]%nat] Hnd Hsegments eq_refl Hrings).
Defined.

End DemoRuns.
